(** * aztec-typescript-experiments: the Main contract and its deployment bridge

    A shallow embedding of
    - [src/contract/src/main.nr]: the Noir contract [Main] (module [Contract]),
    - [src/src/server.ts]: the readiness prober, the deployer with its retry
      wrapper, the WebSocket bridge and the top-level orchestration
      (modules [JSON] and [Server]),
    - [src/unnamed/part_000]: the script that deploys the contract, sets
      [just_field] and reads it back (module [Script]),
    followed by the properties proved about them.

    The contract is a handful of reads and writes of public storage; it is
    embedded in a state monad over the cells it declares.

    The TypeScript programs talk to the outside world (HTTP, the PXE client,
    sockets, timers, the console), and two of them loop without bound.  They
    are embedded as interaction trees over a signature [sysE] of the calls
    they make:
    - a call that can throw, or a promise that can reject, answers in
      [JsError + T]; [try]/[catch] and the propagation of errors are written
      out in the combinators [bindA] and [try_catch];
    - [while (true)] and the functions that call themselves in tail position
      are [ITree.iter];
    - an executable runner [run] performs at most [n] steps against an
      [Environment], which scripts the answer to the i-th call of each kind,
      and keeps a [World]: the trace of all calls and answers so far, and the
      two module-level variables of server.ts.
    A property of all reachable states is a property of [run env n] for all
    [env] and [n]; "returns" is "[run] finishes for some [n]"; "never
    returns" is "[run] finishes for no [n]".

    The script has no loop and no handler: it is embedded as a function
    from the trace so far to its result, or the error it threw, and the trace
    it leaves; its environment answers a call from everything done before.

    What the libraries do inside a call is not part of the programs; an
    environment may answer a call in any way its type allows.  One fact
    about [ws] matters, though: [new WebSocketServer({ port })] returns its
    server before the port is bound, and a bind that fails is told later, by
    an ['error'] event on that server, not by the constructor throwing.
    server.ts registers no listener for that event, so it ends the process.
    [Ports] says which ports cannot be bound, and [failed_binds] which
    servers of a trace get such an event. *)

From stdpp Require Import gmap strings list pretty.
From ITree Require Import ITree Eq.Shallow.
From Stdlib Require Import ZArith Lia Ascii String.

Local Open Scope Z_scope.
Set Warnings "-register-all".

(* ===================================================================== *)
(** * Part I: the programs *)
(* ===================================================================== *)

(** ** The contract [Main] (src/contract/src/main.nr) *)

Module Contract.

(** A Noir [Field] is an element of the BN254 scalar field; it is carried
    as the integer in [0, modulus). *)
Definition modulus : Z :=
  21888242871839275222246405745257275088548364400416034343698204186575808495617.

Abbreviation Field := Z (only parsing).

(** The public state owned by the contract: one cell per key of
    [field_in_map] and the cell of [just_field].  A cell that was never
    written reads as 0, as public storage does. *)
Record PublicState := {
  cells_field_in_map : gmap Z Z;
  cell_just_field : Z
}.

Definition empty_state : PublicState :=
  {| cells_field_in_map := ∅; cell_just_field := 0 |}.

(** A public function runs against the public state. *)
Definition Public (A : Type) : Type := PublicState -> A * PublicState.

Definition ret {A} (a : A) : Public A := fun s => (a, s).
Definition bind {A B} (m : Public A) (k : A -> Public B) : Public B :=
  fun s => let '(a, s') := m s in k a s'.

Declare Scope public_scope.
Delimit Scope public_scope with public.
Notation "x <- m ;; k" := (bind m (fun x => k))
  (at level 100, m at next level, right associativity) : public_scope.
Notation "m ;; k" := (bind m (fun _ => k))
  (at level 100, right associativity) : public_scope.
Local Open Scope public_scope.

(** [PublicMutable<Field, Context>]: a handle on one cell. *)
Record PublicMutable := {
  read : Public Field;
  write : Field -> Public unit
}.

(** [Map<Field, PublicMutable<Field, Context>, Context>]: [at(key)] yields
    the handle of the cell of [key]. *)
Record Map := { at_ : Field -> PublicMutable }.

(** [#[storage] struct Storage<Context>]. *)
Record Storage := {
  field_in_map : Map;
  just_field : PublicMutable
}.

Definition storage : Storage := {|
  field_in_map := {| at_ := fun key => {|
    read := fun s => (default 0 (cells_field_in_map s !! key), s);
    write := fun value s =>
      (tt, {| cells_field_in_map := <[key := value]> (cells_field_in_map s);
              cell_just_field := cell_just_field s |}) |} |};
  just_field := {|
    read := fun s => (cell_just_field s, s);
    write := fun value s =>
      (tt, {| cells_field_in_map := cells_field_in_map s;
              cell_just_field := value |}) |}
|}.

(** [#[public] #[initializer] fn constructor()] *)
Definition constructor : Public unit :=
  write (at_ (field_in_map storage) 1) 1 ;;
  write (just_field storage) 700.

(** [#[public] fn set_just_field(value: Field)] *)
Definition set_just_field (value : Field) : Public unit :=
  write (just_field storage) value.

(** [#[public] #[view] fn get_just_field() -> Field] *)
Definition get_just_field : Public Field :=
  read (just_field storage).

(** [#[public] fn set_field_in_map(key: Field, value: Field)] *)
Definition set_field_in_map (key value : Field) : Public unit :=
  write (at_ (field_in_map storage) key) value.

(** [#[public] #[view] fn read_field_in_map(key: Field) -> Field] *)
Definition read_field_in_map (key : Field) : Public Field :=
  read (at_ (field_in_map storage) key).

(** [#[contract_library_method] fn quadruple(storage, x: Field) -> Field];
    field multiplication wraps at [modulus]. *)
Definition quadruple (x : Field) : Public Field :=
  just_one_field <- read (just_field storage) ;;
  ret (((5 * 20) mod modulus * just_one_field) mod modulus).

(** The value returned by a call and the state it leaves. *)
Definition result {A} (m : Public A) (s : PublicState) : A := fst (m s).
Definition after {A} (m : Public A) (s : PublicState) : PublicState := snd (m s).

(** *** Sequences of calls

    The functions a transaction can call once the contract is deployed, and
    what a call returns ([None] for a function that returns nothing). *)
Inductive Call :=
| SetJustField (value : Field)
| GetJustField
| SetFieldInMap (key value : Field)
| ReadFieldInMap (key : Field).

Definition invoke (c : Call) : Public (option Field) :=
  match c with
  | SetJustField value => set_just_field value ;; ret None
  | GetJustField => value <- get_just_field ;; ret (Some value)
  | SetFieldInMap key value => set_field_in_map key value ;; ret None
  | ReadFieldInMap key => value <- read_field_in_map key ;; ret (Some value)
  end.

(** the calls of [cs], one after the other, and what each returned *)
Fixpoint invoke_all (cs : list Call) : Public (list (option Field)) :=
  match cs with
  | [] => ret []
  | c :: cs' => r <- invoke c ;; rs <- invoke_all cs' ;; ret (r :: rs)
  end.

(** the value of the last [set_just_field] of [cs], and of its last
    [set_field_in_map] on [key], if there is one *)
Definition last_just_field (cs : list Call) : option Field :=
  last (omap (fun c => match c with SetJustField value => Some value | _ => None end) cs).

Definition last_field_in_map (key : Field) (cs : list Call) : option Field :=
  last (omap (fun c =>
    match c with
    | SetFieldInMap key' value => if decide (key' = key) then Some value else None
    | _ => None
    end) cs).

End Contract.

(** ** [JSON.stringify] on the values the bridge serialises *)

Module JSON.

Local Open Scope string_scope.

Inductive value :=
| Null
| Bool (b : bool)
| Number (z : Z)
| Str (s : string)
| Array (items : list value)
| Object (members : list (string * value)).

Definition dquote : ascii := ascii_of_nat 34.
Definition backslash : ascii := ascii_of_nat 92.

Definition hex_digit (n : nat) : ascii :=
  if (n <? 10)%nat then ascii_of_nat (48 + n) else ascii_of_nat (87 + n).

(** One character of a quoted string. *)
Definition escape_char (c : ascii) : string :=
  let n := nat_of_ascii c in
  if (n =? 34)%nat then String backslash (String dquote EmptyString)
  else if (n =? 92)%nat then String backslash (String backslash EmptyString)
  else if (n =? 8)%nat then String backslash "b"
  else if (n =? 12)%nat then String backslash "f"
  else if (n =? 10)%nat then String backslash "n"
  else if (n =? 13)%nat then String backslash "r"
  else if (n =? 9)%nat then String backslash "t"
  else if (n <? 32)%nat then
    String backslash
      (String "u"%char (String "0"%char (String "0"%char
        (String (hex_digit (n / 16)) (String (hex_digit (n mod 16)) EmptyString)))))
  else String c EmptyString.

Fixpoint escape (s : string) : string :=
  match s with
  | EmptyString => EmptyString
  | String c s' => escape_char c +:+ escape s'
  end.

Definition quote (s : string) : string :=
  String dquote (escape s +:+ String dquote EmptyString).

Fixpoint join (sep : string) (parts : list string) : string :=
  match parts with
  | [] => EmptyString
  | [p] => p
  | p :: ps => p +:+ sep +:+ join sep ps
  end.

Fixpoint stringify (v : value) : string :=
  match v with
  | Null => "null"
  | Bool true => "true"
  | Bool false => "false"
  | Number z => pretty z
  | Str s => quote s
  | Array items => "[" +:+ join "," (List.map stringify items) +:+ "]"
  | Object members =>
      "{" +:+ join "," (List.map (fun kv => quote (fst kv) +:+ ":" +:+ stringify (snd kv)) members)
          +:+ "}"
  end.

End JSON.

(** ** The deployment bridge (src/src/server.ts) *)

Module Server.

Local Open Scope string_scope.

(** *** Values exchanged with the outside world *)

(** A thrown JavaScript error; [code] is the [error.code] property. *)
Record JsError := { code : option string; message : string }.

(** The part of a [fetch] response the program reads. *)
Record Response := { statusText : string }.

(** Opaque handles of the Aztec client library and of [ws]. *)
Record PXE := { pxe_id : nat }.
Record AccountWallet := { wallet_id : nat }.
Record AccountManager := { account_id : nat }.
Record TxReceipt := { tx_id : nat }.
Record WebSocketServer := { server_id : nat }.
Record WebSocket := { socket_id : nat }.
Abbreviation Fr := Z (only parsing).
Abbreviation GrumpkinScalar := Z (only parsing).

(** A deployed [MainContract]; [address] is [contract.address.toString()]. *)
Record MainContract := { address : string }.

(** What [deployContract] returns: [{ contract: mainContract, wallet }]. *)
Record DeploymentResult := { contract : MainContract; wallet : AccountWallet }.

(** [RawData] of [ws]: what a ['message'] event carries. *)
Inductive RawData :=
| Buffer (bytes : list Byte.byte)
| ArrayBuffer (bytes : list Byte.byte)
| BufferList (chunks : list (list Byte.byte)).

(** One argument of [console.log] / [console.error]. *)
Inductive LogArg :=
| Str (s : string)
| Err (e : JsError).

(** *** The calls the program makes

    A call whose answer type is [JsError + T] may throw (or reject, when it
    is awaited): [inl e] is the error, [inr v] the value.

    [ProcessEnv name] is [process.env[name]]; [SetTimeout ms] is
    [await new Promise(resolve => setTimeout(resolve, ms))];
    [AccountDeployWait a] is [a.deploy().wait()]; [MainContractDeploy w] is
    [MainContract.deploy(w).send().deployed()]; [WssOnConnection],
    [WsOnMessage] and [WsOnClose] register the handlers of lines 38, 41 and
    46; [RawDataToString m] is [m.toString()]; the last two are the
    assignments to the module-level variables of lines 98 and 99. *)
Variant sysE : Type -> Type :=
| ConsoleLog (args : list LogArg) : sysE unit
| ConsoleError (args : list LogArg) : sysE unit
| ProcessEnv (name : string) : sysE (option string)
| Fetch (url : string) : sysE (JsError + Response)
| SetTimeout (ms : Z) : sysE unit
| CreatePXEClient (url : string) : sysE (JsError + PXE)
| WaitForPXE (pxe : PXE) : sysE (JsError + unit)
| GetInitialTestAccountsWallets (pxe : PXE) : sysE (JsError + list AccountWallet)
| FrRandom : sysE Fr
| DeriveSigningKey (secretKey : Fr) : sysE GrumpkinScalar
| GetSchnorrAccount (pxe : PXE) (secretKey : Fr) (signingKey : GrumpkinScalar) (salt : Fr)
    : sysE (JsError + AccountManager)
| AccountDeployWait (account : AccountManager) : sysE (JsError + TxReceipt)
| AccountGetWallet (account : AccountManager) : sysE (JsError + AccountWallet)
| MainContractDeploy (wallet : AccountWallet) : sysE (JsError + MainContract)
| NewWebSocketServer (port : Z) : sysE (JsError + WebSocketServer)
| WssOnConnection (wss : WebSocketServer) (port : Z) : sysE unit
| WsOnMessage (ws : WebSocket) : sysE unit
| WsOnClose (ws : WebSocket) (port : Z) : sysE unit
| RawDataToString (data : RawData) : sysE string
| WsSend (ws : WebSocket) (data : string) : sysE unit
| AssignContractInstance (c : MainContract) : sysE unit
| AssignWalletInstance (w : AccountWallet) : sysE unit.

(** *** Asynchronous, possibly throwing computations *)

Definition Async (R : Type) : Type := itree sysE (JsError + R).

Definition ret {R} (r : R) : Async R := Ret (inr r).

Definition bindA {R S} (t : Async R) (k : R -> Async S) : Async S :=
  ITree.bind t (fun r => match r with inl e => Ret (inl e) | inr v => k v end).

(** a call that cannot throw *)
Definition call {T} (e : sysE T) : Async T :=
  ITree.bind (ITree.trigger e) (fun a => Ret (inr a)).

(** a call that may throw, or an awaited promise that may reject *)
Definition await {T} (e : sysE (JsError + T)) : Async T := ITree.trigger e.

(** [try { body } catch (error) { handler error }] *)
Definition try_catch {R} (body : Async R) (handler : JsError -> Async R) : Async R :=
  ITree.bind body (fun r => match r with inl e => handler e | inr v => Ret (inr v) end).

(** A function whose only recursive calls are tail calls [return f(i')]:
    the body answers [inl i'] for such a call and [inr r] for [return r]. *)
Definition tail_rec {I R} (body : I -> Async (I + R)) (i : I) : Async R :=
  ITree.iter (fun i =>
    ITree.bind (body i) (fun r =>
      match r with
      | inl e => Ret (inr (inl e))
      | inr (inl i') => Ret (inl i')
      | inr (inr v) => Ret (inr (inr v))
      end)) i.

(** [while (true) { body }]: the body answers [None] when it falls through
    to the next iteration and [Some r] when it executes [return r]. *)
Definition while_true {R} (body : Async (option R)) : Async R :=
  tail_rec (fun _ : unit =>
    bindA body (fun r => match r with None => ret (inl tt) | Some v => ret (inr v) end)) tt.

Declare Scope async_scope.
Delimit Scope async_scope with async.
Notation "x <- t ;; k" := (bindA t (fun x => k))
  (at level 100, t at next level, right associativity) : async_scope.
Notation "t ;; k" := (bindA t (fun _ => k))
  (at level 100, right associativity) : async_scope.
Local Open Scope async_scope.

Definition console_log (args : list LogArg) : Async unit := call (ConsoleLog args).
Definition console_error (args : list LogArg) : Async unit := call (ConsoleError args).

(** [await new Promise(resolve => setTimeout(resolve, ms))] *)
Definition sleep (ms : Z) : Async unit := call (SetTimeout ms).

(** [error.code === c] *)
Definition code_is (error : JsError) (c : string) : bool :=
  match code error with
  | Some c' => String.eqb c' c
  | None => false
  end.

(** *** server.ts, lines 10-29: the deployer *)

Definition setupSandbox : Async PXE :=
  env_url <- call (ProcessEnv "PXE_URL") ;;
  let PXE_URL := default "http://localhost:8080" env_url in
  pxe <- await (CreatePXEClient PXE_URL) ;;
  await (WaitForPXE pxe) ;;
  ret pxe.

Definition deployContract : Async DeploymentResult :=
  console_log [Str "goes into deployContract"] ;;
  pxe <- setupSandbox ;;
  wallets <- await (GetInitialTestAccountsWallets pxe) ;;
  secretKey <- call FrRandom ;;
  salt <- call FrRandom ;;
  signingKey <- call (DeriveSigningKey secretKey) ;;
  schnorrAccount <- await (GetSchnorrAccount pxe secretKey signingKey salt) ;;
  tx <- await (AccountDeployWait schnorrAccount) ;;
  wallet <- await (AccountGetWallet schnorrAccount) ;;
  mainContract <- await (MainContractDeploy wallet) ;;
  console_log [Str ("✅ Main Contract deployed at: " +:+ address mainContract)] ;;
  ret {| contract := mainContract; wallet := wallet |}.

(** *** server.ts, lines 34-61: the bridge *)

(** [{ success: true, message: "Test response from WebSocket server" }] *)
Definition ack_object : JSON.value :=
  JSON.Object [("success", JSON.Bool true);
               ("message", JSON.Str "Test response from WebSocket server")].

(** the ['message'] handler, lines 41-44 *)
Definition onMessage (ws : WebSocket) (message : RawData) : Async unit :=
  text <- call (RawDataToString message) ;;
  console_log [Str "📥 Received WebSocket message:"; Str text] ;;
  call (WsSend ws (JSON.stringify ack_object)).

(** the ['close'] handler, lines 46-48 *)
Definition onClose (port : Z) : Async unit :=
  console_log [Str ("❌ Rust sequencer disconnected from port " +:+ pretty port)].

(** the ['connection'] handler, lines 38-50 *)
Definition onConnection (port : Z) (ws : WebSocket) : Async unit :=
  console_log [Str ("✅ Rust sequencer connected to WebSocket on port " +:+ pretty port)] ;;
  call (WsOnMessage ws) ;;
  call (WsOnClose ws port).

Definition startWebSocketServer (port : Z) : Async unit :=
  tail_rec (fun port =>
    try_catch
      (wss <- await (NewWebSocketServer port) ;;
       call (WssOnConnection wss port) ;;
       console_log [Str ("🚀 WebSocket server running on ws://localhost:" +:+ pretty port)] ;;
       ret (inr tt))
      (fun error =>
         if code_is error "EADDRINUSE" then
           console_error [Str ("❌ Port " +:+ pretty port +:+ " already in use, retrying with port "
                               +:+ pretty (port + 1) +:+ "...")] ;;
           ret (inl (port + 1))
         else
           console_error [Str "❌ Unexpected error in WebSocket server:"; Err error] ;;
           ret (inr tt))) port.

(** *** server.ts, lines 66-81: the readiness prober *)

Definition status_url : string := "http://localhost:8080/status".

Definition ensurePXEReady : Async unit :=
  console_log [Str "⏳ Waiting for PXE to be ready..."] ;;
  while_true
    (returned <- try_catch
       (response <- await (Fetch status_url) ;;
        console_log [Str "response.statusText"; Str (statusText response)] ;;
        if String.eqb (statusText response) "OK" then
          console_log [Str "✅ PXE is ready!"] ;;
          ret true
        else ret false)
       (fun error =>
          console_log [Str "⏳ PXE not ready yet, retrying..."] ;;
          ret false) ;;
     if returned : bool then ret (Some tt)
     else sleep 5000 ;; ret None).

(** *** server.ts, lines 83-95: the retry wrapper *)

Definition deployContractWithRetry : Async DeploymentResult :=
  tail_rec (fun _ : unit =>
    ensurePXEReady ;;
    try_catch
      (console_log [Str "🚀 Deploying contract..."] ;;
       deployed <- deployContract ;;
       console_log [Str "✅ Contract deployed at:"; Str (address (contract deployed))] ;;
       ret (inr deployed))
      (fun error =>
         console_error [Str "❌ Contract deployment failed, retrying in 10 seconds...";
                        Err error] ;;
         sleep 10000 ;;
         ret (inl tt))) tt.

(** *** server.ts, line 8 and lines 97-101: the module's top level *)

Definition main : Async unit :=
  _wss <- await (NewWebSocketServer 3001) ;;
  deployed <- deployContractWithRetry ;;
  call (AssignContractInstance (contract deployed)) ;;
  call (AssignWalletInstance (wallet deployed)) ;;
  startWebSocketServer 3002.

(** *** Running a program against an environment *)

(** One entry of the trace: a call and the answer it got. *)
Inductive obs := Obs : forall T, sysE T -> T -> obs.
Arguments Obs {T} e a.

(** The kinds of call; the environment answers the n-th call of a kind. *)
Variant kind :=
| KConsoleLog | KConsoleError | KProcessEnv | KFetch | KSetTimeout
| KCreatePXEClient | KWaitForPXE | KGetInitialTestAccountsWallets | KFrRandom
| KDeriveSigningKey | KGetSchnorrAccount | KAccountDeployWait | KAccountGetWallet
| KMainContractDeploy | KNewWebSocketServer | KWssOnConnection | KWsOnMessage
| KWsOnClose | KRawDataToString | KWsSend | KAssignContractInstance
| KAssignWalletInstance.

#[export] Instance kind_eq_dec : EqDecision kind.
Proof. solve_decision. Defined.

Definition kind_of {T} (e : sysE T) : kind :=
  match e with
  | ConsoleLog _ => KConsoleLog
  | ConsoleError _ => KConsoleError
  | ProcessEnv _ => KProcessEnv
  | Fetch _ => KFetch
  | SetTimeout _ => KSetTimeout
  | CreatePXEClient _ => KCreatePXEClient
  | WaitForPXE _ => KWaitForPXE
  | GetInitialTestAccountsWallets _ => KGetInitialTestAccountsWallets
  | FrRandom => KFrRandom
  | DeriveSigningKey _ => KDeriveSigningKey
  | GetSchnorrAccount _ _ _ _ => KGetSchnorrAccount
  | AccountDeployWait _ => KAccountDeployWait
  | AccountGetWallet _ => KAccountGetWallet
  | MainContractDeploy _ => KMainContractDeploy
  | NewWebSocketServer _ => KNewWebSocketServer
  | WssOnConnection _ _ => KWssOnConnection
  | WsOnMessage _ => KWsOnMessage
  | WsOnClose _ _ => KWsOnClose
  | RawDataToString _ => KRawDataToString
  | WsSend _ _ => KWsSend
  | AssignContractInstance _ => KAssignContractInstance
  | AssignWalletInstance _ => KAssignWalletInstance
  end.

Definition obs_kind (o : obs) : kind :=
  match o with Obs e _ => kind_of e end.

(** how many calls of kind [k] the trace holds *)
Definition calls (k : kind) (tr : list obs) : nat :=
  List.length (filter (fun o => obs_kind o = k) tr).

(** The environment: its answer to a call, given how many calls of the same
    kind came before. *)
Definition Environment : Type := forall T, sysE T -> nat -> T.

(** The process: everything done so far, and the two module-level variables
    [contractInstance] and [walletInstance] ([None] is [undefined]). *)
Record World := {
  trace : list obs;
  contractInstance : option MainContract;
  walletInstance : option AccountWallet
}.

Definition initial_world : World :=
  {| trace := []; contractInstance := None; walletInstance := None |}.

(** performing one call *)
Definition perform (env : Environment) {T} (e : sysE T) (w : World) : T * World :=
  let a := env T e (calls (kind_of e) (trace w)) in
  (a, {| trace := trace w ++ [Obs e a];
         contractInstance :=
           match e with
           | AssignContractInstance c => Some c
           | _ => contractInstance w
           end;
         walletInstance :=
           match e with
           | AssignWalletInstance wl => Some wl
           | _ => walletInstance w
           end |}).

(** The state of a run after at most [n] steps: finished with a result (and
    the steps left over), or still running. *)
Inductive outcome (R : Type) :=
| Done (r : R) (w : World) (rem : nat)
| OutOfFuel (w : World).
Arguments Done {R} r w rem.
Arguments OutOfFuel {R} w.

Definition world_of {R} (o : outcome R) : World :=
  match o with
  | Done _ w _ => w
  | OutOfFuel w => w
  end.

(** A step is a call or one turn of a loop. *)
Fixpoint run (env : Environment) {R} (n : nat) (t : itree sysE R) (w : World) : outcome R :=
  match observe t with
  | RetF r => Done r w n
  | TauF t' =>
      match n with
      | O => OutOfFuel w
      | S n' => run env n' t' w
      end
  | VisF e k =>
      match n with
      | O => OutOfFuel w
      | S n' => let '(a, w') := perform env e w in run env n' (k a) w'
      end
  end.

Arguments run : simpl never.

(** [t], started in [w], returns [r] and leaves [w']. *)
Definition returns (env : Environment) {R} (t : itree sysE R) (w : World) (r : R) (w' : World) : Prop :=
  exists n rem, run env n t w = Done r w' rem.

(** [t], started in [w], never returns. *)
Definition diverges (env : Environment) {R} (t : itree sysE R) (w : World) : Prop :=
  forall n, exists w', run env n t w = @OutOfFuel R w'.

(** [w] with [tr] appended to its trace *)
Definition extend (w : World) (tr : list obs) : World :=
  {| trace := trace w ++ tr;
     contractInstance := contractInstance w;
     walletInstance := walletInstance w |}.

(** the answer the next call [e] gets in [w] *)
Definition answer (env : Environment) {T} (e : sysE T) (w : World) : T :=
  env T e (calls (kind_of e) (trace w)).

(** calls that assign a module-level variable *)
Definition assigns (o : obs) : Prop :=
  obs_kind o = KAssignContractInstance \/ obs_kind o = KAssignWalletInstance.

(** *** The prober, seen from outside *)

(** the body of the [while (true)] loop of [ensurePXEReady] *)
Definition probe_once : Async (option unit) :=
  returned <- try_catch
    (response <- await (Fetch status_url) ;;
     console_log [Str "response.statusText"; Str (statusText response)] ;;
     if String.eqb (statusText response) "OK" then
       console_log [Str "✅ PXE is ready!"] ;;
       ret true
     else ret false)
    (fun error =>
       console_log [Str "⏳ PXE not ready yet, retrying..."] ;;
       ret false) ;;
  if returned : bool then ret (Some tt)
  else sleep 5000 ;; ret None.

(** a status response whose status text is the literal ["OK"] *)
Definition ready (reply : JsError + Response) : bool :=
  match reply with
  | inr response => String.eqb (statusText response) "OK"
  | inl _ => false
  end.

(** what one probe with this reply leaves in the trace *)
Definition probe_obs (reply : JsError + Response) : list obs :=
  Obs (Fetch status_url) reply ::
  match reply with
  | inl _ =>
      [Obs (ConsoleLog [Str "⏳ PXE not ready yet, retrying..."]) tt;
       Obs (SetTimeout 5000) tt]
  | inr response =>
      Obs (ConsoleLog [Str "response.statusText"; Str (statusText response)]) tt ::
      if String.eqb (statusText response) "OK"
      then [Obs (ConsoleLog [Str "✅ PXE is ready!"]) tt]
      else [Obs (SetTimeout 5000) tt]
  end.

(** the probes numbered [c], ..., [c + k] *)
Fixpoint probes_trace (env : Environment) (c k : nat) : list obs :=
  probe_obs (env _ (Fetch status_url) c) ++
  match k with
  | O => []
  | S k' => probes_trace env (S c) k'
  end.

(** what a call of [ensurePXEReady] that needs [k + 1] probes leaves in the
    trace, when [c] probes were made before it *)
Definition prober_trace (env : Environment) (c k : nat) : list obs :=
  Obs (ConsoleLog [Str "⏳ Waiting for PXE to be ready..."]) tt :: probes_trace env c k.

(** [k] times a probe and a pause of 5000 ms, then one more probe *)
Fixpoint probes_and_pauses (env : Environment) (c k : nat) : list obs :=
  match k with
  | O => [Obs (Fetch status_url) (env _ (Fetch status_url) c)]
  | S k' =>
      Obs (Fetch status_url) (env _ (Fetch status_url) c) ::
      Obs (SetTimeout 5000) tt :: probes_and_pauses env (S c) k'
  end.

(** the probes and the pauses of a trace, in order *)
Definition probes_and_pauses_of (tr : list obs) : list obs :=
  filter (fun o => obs_kind o = KFetch \/ obs_kind o = KSetTimeout) tr.

(** *** The retry wrapper, seen from outside *)

(** the body of [deployContractWithRetry]; [inl tt] is the tail call
    [return deployContractWithRetry()] *)
Definition deploy_attempt (_ : unit) : Async (unit + DeploymentResult) :=
  ensurePXEReady ;;
  try_catch
    (console_log [Str "🚀 Deploying contract..."] ;;
     deployed <- deployContract ;;
     console_log [Str "✅ Contract deployed at:"; Str (address (contract deployed))] ;;
     ret (inr deployed))
    (fun error =>
       console_error [Str "❌ Contract deployment failed, retrying in 10 seconds...";
                      Err error] ;;
       sleep 10000 ;;
       ret (inl tt)).

(** what the wrapper adds to the trace around one run of the deployer *)
Definition deploying : list obs :=
  [Obs (ConsoleLog [Str "🚀 Deploying contract..."]) tt].

Definition deployed_at (res : DeploymentResult) : list obs :=
  [Obs (ConsoleLog [Str "✅ Contract deployed at:"; Str (address (contract res))]) tt].

Definition failed_and_paused (error : JsError) : list obs :=
  [Obs (ConsoleError [Str "❌ Contract deployment failed, retrying in 10 seconds...";
                      Err error]) tt;
   Obs (SetTimeout 10000) tt].

(** The deployer fails with each of [errors] in turn and then succeeds with
    [res]: every attempt starts with a call of the prober that returns; a
    failed attempt is followed by the error being logged and a pause of
    10000 ms; the successful one by the address being logged.  [w] is the
    world at the start and [w'] the world at the end. *)
Fixpoint retry_scenario (env : Environment) (w : World) (errors : list JsError)
    (res : DeploymentResult) (w' : World) : Prop :=
  exists w1 w2,
    returns env ensurePXEReady w (inr tt) w1 /\
    match errors with
    | [] =>
        returns env deployContract (extend w1 deploying) (inr res) w2
        /\ w' = extend w2 (deployed_at res)
    | error :: errors' =>
        returns env deployContract (extend w1 deploying) (inl error) w2
        /\ retry_scenario env (extend w2 (failed_and_paused error)) errors' res w'
    end.

(** the errors a trace logged as failed deployments, in order *)
Definition logged_failures (tr : list obs) : list JsError :=
  flat_map (fun o =>
    match o with
    | Obs e _ =>
        match e with
        | ConsoleError [Str _; Err error] => [error]
        | _ => []
        end
    end) tr.

(** the pauses of 10000 ms of a trace *)
Definition long_pauses (tr : list obs) : list Z :=
  flat_map (fun o =>
    match o with
    | Obs e _ =>
        match e with
        | SetTimeout ms => if (ms =? 10000)%Z then [ms] else []
        | _ => []
        end
    end) tr.

(** the calls of the prober and the runs of the deployer that a trace
    started, in order: [true] for the first line of [ensurePXEReady], [false]
    for the first line of [deployContract] *)
Definition starts (tr : list obs) : list bool :=
  flat_map (fun o =>
    match o with
    | Obs e _ =>
        match e with
        | ConsoleLog [Str s] =>
            if String.eqb s "⏳ Waiting for PXE to be ready..." then [true]
            else if String.eqb s "goes into deployContract" then [false]
            else []
        | _ => []
        end
    end) tr.

(** [n] times: the prober, then the deployer *)
Fixpoint alternating (n : nat) : list bool :=
  match n with
  | O => []
  | S n' => true :: false :: alternating n'
  end.

(** *** The bind of the bridge, seen from outside *)

(** the body of [startWebSocketServer]; [inl (port + 1)] is the call
    [startWebSocketServer(port + 1)] that ends the [catch] block *)
Definition bridge_attempt (port : Z) : Async (Z + unit) :=
  try_catch
    (wss <- await (NewWebSocketServer port) ;;
     call (WssOnConnection wss port) ;;
     console_log [Str ("🚀 WebSocket server running on ws://localhost:" +:+ pretty port)] ;;
     ret (inr tt))
    (fun error =>
       if code_is error "EADDRINUSE" then
         console_error [Str ("❌ Port " +:+ pretty port +:+ " already in use, retrying with port "
                             +:+ pretty (port + 1) +:+ "...")] ;;
         ret (inl (port + 1))
       else
         console_error [Str "❌ Unexpected error in WebSocket server:"; Err error] ;;
         ret (inr tt)).

(** the test of line 54 on what the constructor did: it threw, and the error
    it threw has the code ["EADDRINUSE"] *)
Definition caught_in_use (reply : JsError + WebSocketServer) : bool :=
  match reply with
  | inl error => code_is error "EADDRINUSE"
  | inr _ => false
  end.

(** what one attempt on [port] with this reply leaves in the trace *)
Definition bind_obs (port : Z) (reply : JsError + WebSocketServer) : list obs :=
  Obs (NewWebSocketServer port) reply ::
  match reply with
  | inr wss =>
      [Obs (WssOnConnection wss port) tt;
       Obs (ConsoleLog [Str ("🚀 WebSocket server running on ws://localhost:" +:+ pretty port)]) tt]
  | inl error =>
      if code_is error "EADDRINUSE" then
        [Obs (ConsoleError
                [Str ("❌ Port " +:+ pretty port +:+ " already in use, retrying with port "
                      +:+ pretty (port + 1) +:+ "...")]) tt]
      else
        [Obs (ConsoleError [Str "❌ Unexpected error in WebSocket server:"; Err error]) tt]
  end.

(** the ports on which a trace tried to bind, in order *)
Definition bind_ports (tr : list obs) : list Z :=
  flat_map (fun o =>
    match o with
    | Obs e _ =>
        match e with
        | NewWebSocketServer port => [port]
        | _ => []
        end
    end) tr.

(** The ports that cannot be bound, each with the error of the bind
    ([None] for a port that can). *)
Definition Ports : Type := Z -> option JsError.

(** The binds of a trace that fail.  The constructor returned its server;
    [ws] then tells the failure by an ['error'] event on that server, for
    which server.ts registers no listener (it registers ['connection'] only,
    line 38): the error is uncaught and ends the process. *)
Definition failed_binds (ports : Ports) (tr : list obs) : list (Z * JsError) :=
  flat_map (fun o =>
    match o with
    | Obs e a =>
        match e in sysE T return T -> list (Z * JsError) with
        | NewWebSocketServer port => fun a =>
            match a, ports port with
            | inr _, Some error => [(port, error)]
            | _, _ => []
            end
        | _ => fun _ => []
        end a
    end) tr.


(** [port], [port + 1], ..., [port + k] *)
Fixpoint ports_from (port : Z) (k : nat) : list Z :=
  port :: match k with
          | O => []
          | S k' => ports_from (port + 1) k'
          end.

(** *** The orchestration, seen from outside *)

(** In [tr], a status probe was answered ["OK"] and, later, the deployment of
    the contract succeeded with the contract and the wallet of [res]. *)
Definition deployed_in (res : DeploymentResult) (tr : list obs) : Prop :=
  exists response,
    statusText response = "OK" /\
    [Obs (Fetch status_url) (inr response);
     Obs (MainContractDeploy (wallet res)) (inr (contract res))] `sublist_of` tr.

(** the two assignments of the [then] callback *)
Definition stored (res : DeploymentResult) : list obs :=
  [Obs (AssignContractInstance (contract res)) tt;
   Obs (AssignWalletInstance (wallet res)) tt].

(** *** What a program can do at all *)

(** Whatever the environment and however long it runs, [t] only extends the
    trace, by calls that satisfy [P], and assigns no module-level variable. *)
Definition emits (P : obs -> Prop) {R} (t : itree sysE R) : Prop :=
  forall env n w, exists tr,
    world_of (run env n t w) = extend w tr /\ Forall P tr /\ Forall (fun o => ~ assigns o) tr.

(** a bind of the bridge: [new WebSocketServer({ port })] on port 3002 or
    above (line 8 binds 3001, which is not the bridge) *)
Definition bridge_bind (o : obs) : bool :=
  match o with
  | Obs e _ =>
      match e with
      | NewWebSocketServer port => (3002 <=? port)%Z
      | _ => false
      end
  end.

(** calls other than [new WebSocketServer] *)
Definition quiet (o : obs) : Prop := obs_kind o <> KNewWebSocketServer.

(** the first thing [deployContract] does: a run of the deployer starts *)
Definition is_deployer_start (o : obs) : bool :=
  match o with
  | Obs e _ =>
      match e with
      | ConsoleLog [Str s] => String.eqb s "goes into deployContract"
      | _ => false
      end
  end.

(** the last things [ensurePXEReady] does: a run of the prober completes *)
Definition prober_done (response : Response) : list obs :=
  [Obs (Fetch status_url) (inr response);
   Obs (ConsoleLog [Str "response.statusText"; Str (statusText response)]) tt;
   Obs (ConsoleLog [Str "✅ PXE is ready!"]) tt].

(** In the trace, every start of the deployer comes right after a completed
    run of the prober and the line "Deploying contract...". *)
Inductive guarded : list obs -> Prop :=
| guarded_quiet tr :
    Forall (fun o => is_deployer_start o = false) tr -> guarded tr
| guarded_start tr response o tr' :
    Forall (fun o => is_deployer_start o = false) tr ->
    statusText response = "OK" ->
    is_deployer_start o = true ->
    guarded tr' ->
    guarded (tr ++ prober_done response ++ deploying ++ o :: tr').

(** a trace that is empty, or starts with the bind of port 3001 of line 8 and
    goes on with neither a bind nor an assignment *)
Definition before_deployment (tr : list obs) : Prop :=
  tr = [] \/
  exists reply tr',
    tr = Obs (NewWebSocketServer 3001) reply :: tr'
    /\ Forall quiet tr' /\ Forall (fun o => ~ assigns o) tr' /\ guarded tr'.

(** *** The acknowledgement on the wire *)

Definition dq : string := String JSON.dquote EmptyString.

(** the text [{"success":true,"message":"Test response from WebSocket server"}],
    as [JSON.stringify] prints the acknowledgement object *)
Definition ack_payload : string :=
  "{" +:+ dq +:+ "success" +:+ dq +:+ ":true," +:+ dq +:+ "message" +:+ dq +:+ ":"
      +:+ dq +:+ "Test response from WebSocket server" +:+ dq +:+ "}".

(** what was sent on sockets, in order *)
Definition sent (tr : list obs) : list (WebSocket * string) :=
  flat_map (fun o =>
    match o with
    | Obs e _ =>
        match e with
        | WsSend ws data => [(ws, data)]
        | _ => []
        end
    end) tr.

(** the URLs a trace fetched, and the URLs it made PXE clients for *)
Definition fetched (tr : list obs) : list string :=
  flat_map (fun o =>
    match o with
    | Obs e _ =>
        match e with
        | Fetch url => [url]
        | _ => []
        end
    end) tr.

Definition pxe_clients (tr : list obs) : list string :=
  flat_map (fun o =>
    match o with
    | Obs e _ =>
        match e with
        | CreatePXEClient url => [url]
        | _ => []
        end
    end) tr.

(** *** Example environments *)

(** Everything works at once: the status endpoint answers ["OK"], every
    call of the client library succeeds, every port is free, [PXE_URL] is
    not set. *)
Definition calm : Environment :=
  fun T e n =>
    match e in sysE T return T with
    | ConsoleLog _ => tt
    | ConsoleError _ => tt
    | ProcessEnv _ => None
    | Fetch _ => inr {| statusText := "OK" |}
    | SetTimeout _ => tt
    | CreatePXEClient _ => inr {| pxe_id := n |}
    | WaitForPXE _ => inr tt
    | GetInitialTestAccountsWallets _ => inr [{| wallet_id := 0 |}; {| wallet_id := 1 |}]
    | FrRandom => 1000 + Z.of_nat n
    | DeriveSigningKey secretKey => secretKey + 1
    | GetSchnorrAccount _ _ _ _ => inr {| account_id := n |}
    | AccountDeployWait _ => inr {| tx_id := n |}
    | AccountGetWallet account => inr {| wallet_id := 100 + account_id account |}
    | MainContractDeploy _ => inr {| address := "0x04bf" +:+ pretty n |}
    | NewWebSocketServer _ => inr {| server_id := n |}
    | WssOnConnection _ _ => tt
    | WsOnMessage _ => tt
    | WsOnClose _ _ => tt
    | RawDataToString data =>
        match data with
        | Buffer bytes => string_of_list_byte bytes
        | ArrayBuffer _ => "[object ArrayBuffer]"
        | BufferList chunks => JSON.join "," (List.map string_of_list_byte chunks)
        end
    | WsSend _ _ => tt
    | AssignContractInstance _ => tt
    | AssignWalletInstance _ => tt
    end.

Definition network_error : JsError :=
  {| code := Some "ECONNREFUSED"; message := "fetch failed" |}.

(** the status endpoint is unreachable twice, then answers ["OK"] *)
Definition two_failed_probes : Environment :=
  fun T e n =>
    match e in sysE T return T -> T with
    | Fetch _ => fun answer => if (n <? 2)%nat then inl network_error else answer
    | _ => fun answer => answer
    end (calm T e n).

Definition timeout_error : JsError :=
  {| code := None; message := "Timeout awaiting isMined" |}.

(** the deployment of the account times out once *)
Definition deploy_fails_once : Environment :=
  fun T e n =>
    match e in sysE T return T -> T with
    | AccountDeployWait _ => fun answer => if (n <? 1)%nat then inl timeout_error else answer
    | _ => fun answer => answer
    end (calm T e n).

Definition address_in_use : JsError :=
  {| code := Some "EADDRINUSE"; message := "listen EADDRINUSE: address already in use" |}.

Definition access_denied : JsError :=
  {| code := Some "EACCES"; message := "listen EACCES: permission denied" |}.

(** every port can be bound *)
Definition all_ports_free : Ports := fun _ => None.

(** port 3002 is bound by another process *)
Definition port_3002_busy : Ports :=
  fun port => if (port =? 3002)%Z then Some address_in_use else None.

(** port 3002 may not be bound by this process *)
Definition port_3002_denied : Ports :=
  fun port => if (port =? 3002)%Z then Some access_denied else None.

(** [PXE_URL] points at another host, whose status endpoint is the only one
    that answers *)
Definition remote_pxe : Environment :=
  fun T e n =>
    match e in sysE T return T -> T with
    | ProcessEnv name => fun answer =>
        if String.eqb name "PXE_URL" then Some "http://10.0.0.5:9000" else answer
    | Fetch url => fun answer =>
        if String.eqb url "http://10.0.0.5:9000/status" then answer else inl network_error
    | _ => fun answer => answer
    end (calm T e n).

(** *** The scenarios of the specification, spelled out *)

(** the pauses of a trace, in milliseconds *)
Definition pauses (tr : list obs) : list Z :=
  flat_map (fun o =>
    match o with
    | Obs e _ =>
        match e with
        | SetTimeout ms => [ms]
        | _ => []
        end
    end) tr.

(** two network errors, then ["OK"] *)
Definition two_failed_probes_trace : list obs :=
  [Obs (ConsoleLog [Str "⏳ Waiting for PXE to be ready..."]) tt;
   Obs (Fetch "http://localhost:8080/status") (inl network_error);
   Obs (ConsoleLog [Str "⏳ PXE not ready yet, retrying..."]) tt;
   Obs (SetTimeout 5000) tt;
   Obs (Fetch "http://localhost:8080/status") (inl network_error);
   Obs (ConsoleLog [Str "⏳ PXE not ready yet, retrying..."]) tt;
   Obs (SetTimeout 5000) tt;
   Obs (Fetch "http://localhost:8080/status") (inr {| statusText := "OK" |});
   Obs (ConsoleLog [Str "response.statusText"; Str "OK"]) tt;
   Obs (ConsoleLog [Str "✅ PXE is ready!"]) tt].

(** the deployment that succeeds at the second attempt *)
Definition second_attempt : DeploymentResult :=
  {| contract := {| address := "0x04bf0" |}; wallet := {| wallet_id := 101 |} |}.

(** the message [hello] *)
Definition hello : RawData :=
  Buffer [Byte.x68; Byte.x65; Byte.x6c; Byte.x6c; Byte.x6f].

(** *** Errors, and where they stop a program *)

Definition error_of {T} (a : JsError + T) : option JsError :=
  match a with
  | inl error => Some error
  | inr _ => None
  end.

(** the error with which a call threw, or its promise rejected *)
Definition thrown (o : obs) : option JsError :=
  match o with
  | Obs e a =>
      match e in sysE T return T -> option JsError with
      | Fetch _ => error_of
      | CreatePXEClient _ => error_of
      | WaitForPXE _ => error_of
      | GetInitialTestAccountsWallets _ => error_of
      | GetSchnorrAccount _ _ _ _ => error_of
      | AccountDeployWait _ => error_of
      | AccountGetWallet _ => error_of
      | MainContractDeploy _ => error_of
      | NewWebSocketServer _ => error_of
      | _ => fun _ => None
      end a
  end.

(** [t] stops at the first call that throws and ends with its error: however
    long it runs, no call of it has thrown, unless the run is over with the
    error of the last call it made.  It assigns no module-level variable. *)
Definition fail_fast {R} (t : Async R) : Prop :=
  forall env n w, exists tr,
    world_of (run env n t w) = extend w tr /\
    match run env n t w with
    | Done (inl error) _ _ =>
        exists tr' o, tr = (tr' ++ [o])%list /\ thrown o = Some error
                      /\ Forall (fun o => thrown o = None) tr'
    | _ => Forall (fun o => thrown o = None) tr
    end.

(** [t] is over after at most [n] steps, whatever the environment *)
Definition finishes_within (n : nat) {R} (t : itree sysE R) : Prop :=
  forall env w m, exists r w' rem, run env (n + m) t w = Done r w' rem /\ (m <= rem)%nat.

(** what a run of [deployContract] that returns [res] leaves in the trace *)
Definition deployment_trace (env_url : option string) (pxe : PXE)
    (wallets : list AccountWallet) (secretKey salt : Fr) (signingKey : GrumpkinScalar)
    (schnorrAccount : AccountManager) (tx : TxReceipt) (res : DeploymentResult) : list obs :=
  [Obs (ConsoleLog [Str "goes into deployContract"]) tt;
   Obs (ProcessEnv "PXE_URL") env_url;
   Obs (CreatePXEClient (default "http://localhost:8080" env_url)) (inr pxe);
   Obs (WaitForPXE pxe) (inr tt);
   Obs (GetInitialTestAccountsWallets pxe) (inr wallets);
   Obs FrRandom secretKey;
   Obs FrRandom salt;
   Obs (DeriveSigningKey secretKey) signingKey;
   Obs (GetSchnorrAccount pxe secretKey signingKey salt) (inr schnorrAccount);
   Obs (AccountDeployWait schnorrAccount) (inr tx);
   Obs (AccountGetWallet schnorrAccount) (inr (wallet res));
   Obs (MainContractDeploy (wallet res)) (inr (contract res));
   Obs (ConsoleLog [Str ("✅ Main Contract deployed at: " +:+ address (contract res))]) tt].

(** *** One connection of the bridge *)

(** the handler of line 41 runs for each of [messages] in turn *)
Fixpoint messages_handled (env : Environment) (ws : WebSocket) (messages : list RawData)
    (w w' : World) : Prop :=
  match messages with
  | [] => w' = w
  | message :: messages' =>
      exists w1, returns env (onMessage ws message) w (inr tt) w1
                 /\ messages_handled env ws messages' w1 w'
  end.

(** A client connects on [ws], sends [messages] and disconnects: the
    handlers of lines 38, 41 and 46 run in the order of these events. *)
Definition session (env : Environment) (port : Z) (ws : WebSocket) (messages : list RawData)
    (w w' : World) : Prop :=
  exists w1 w2,
    returns env (onConnection port ws) w (inr tt) w1
    /\ messages_handled env ws messages w1 w2
    /\ returns env (onClose port) w2 (inr tt) w'.

(** what handling a message whose text is [text] leaves in the trace *)
Definition message_obs (ws : WebSocket) (message : RawData) (text : string) : list obs :=
  [Obs (RawDataToString message) text;
   Obs (ConsoleLog [Str "📥 Received WebSocket message:"; Str text]) tt;
   Obs (WsSend ws ack_payload) tt].

(** what such a connection leaves in the trace, given the messages and
    their texts *)
Definition session_trace (port : Z) (ws : WebSocket) (messages : list (RawData * string))
    : list obs :=
  [Obs (ConsoleLog [Str ("✅ Rust sequencer connected to WebSocket on port " +:+ pretty port)]) tt;
   Obs (WsOnMessage ws) tt;
   Obs (WsOnClose ws port) tt]
  ++ flat_map (fun m => message_obs ws m.1 m.2) messages
  ++ [Obs (ConsoleLog [Str ("❌ Rust sequencer disconnected from port " +:+ pretty port)]) tt].

(** *** The kinds of call each part makes *)

Definition prober_kinds : list kind := [KConsoleLog; KFetch; KSetTimeout].

Definition deployer_kinds : list kind :=
  [KConsoleLog; KProcessEnv; KCreatePXEClient; KWaitForPXE; KGetInitialTestAccountsWallets;
   KFrRandom; KDeriveSigningKey; KGetSchnorrAccount; KAccountDeployWait; KAccountGetWallet;
   KMainContractDeploy].

Definition retry_kinds : list kind := KConsoleError :: prober_kinds ++ deployer_kinds.

Definition bridge_kinds : list kind :=
  [KNewWebSocketServer; KWssOnConnection; KConsoleLog; KConsoleError].

Definition connection_kinds : list kind := [KConsoleLog; KWsOnMessage; KWsOnClose].

Definition message_kinds : list kind := [KRawDataToString; KConsoleLog; KWsSend].

Definition close_kinds : list kind := [KConsoleLog].

Definition of_kinds (ks : list kind) (o : obs) : Prop := obs_kind o ∈ ks.

(** *** More scenarios *)

(** the deployment that succeeds at the first attempt *)
Definition first_attempt : DeploymentResult :=
  {| contract := {| address := "0x04bf0" |}; wallet := {| wallet_id := 100 |} |}.

End Server.

(** ** The script (src/unnamed/part_000) *)

Module Script.
Import Server.
Local Open Scope string_scope.

(** Opaque handles of [createLogger] and of [getCompleteAddress]. *)
Record Logger := { logger_id : nat }.
Record CompleteAddress := { complete_address_id : nat }.

(** One argument of [console.log]; [Wallet None] is [undefined]. *)
Inductive LogArg :=
| Str (s : string)
| Pxe (pxe : PXE)
| Wallet (wallet : option AccountWallet)
| Main (main : MainContract)
| FieldValue (value : Z).

(** The calls the script makes.  [MainContractAt a w] is
    [MainContract.at(a, w)]; [SetJustField c v] is
    [c.methods.set_just_field(v).send().wait()]; [GetJustFieldSimulate c] is
    [c.methods.get_just_field().simulate()]. *)
Variant scriptE : Type -> Type :=
| ConsoleLog (args : list LogArg) : scriptE unit
| CreateLogger (name : string) : scriptE Logger
| LoggerInfo (logger : Logger) (text : string) : scriptE unit
| ProcessEnv (name : string) : scriptE (option string)
| CreatePXEClient (url : string) : scriptE (JsError + PXE)
| WaitForPXE (pxe : PXE) : scriptE (JsError + unit)
| GetInitialTestAccountsWallets (pxe : PXE) : scriptE (JsError + list AccountWallet)
| FrRandom : scriptE Fr
| DeriveSigningKey (secretKey : Fr) : scriptE GrumpkinScalar
| GetSchnorrAccount (pxe : PXE) (secretKey : Fr) (signingKey : GrumpkinScalar) (salt : Fr)
    : scriptE (JsError + AccountManager)
| GetCompleteAddress (account : AccountManager) : scriptE (JsError + CompleteAddress)
| AccountDeployWait (account : AccountManager) : scriptE (JsError + TxReceipt)
| AccountGetWallet (account : AccountManager) : scriptE (JsError + AccountWallet)
| MainContractDeploy (wallet : AccountWallet) : scriptE (JsError + MainContract)
| MainContractAt (contractAddress : string) (wallet : option AccountWallet)
    : scriptE (JsError + MainContract)
| SetJustField (main : MainContract) (value : Z) : scriptE (JsError + TxReceipt)
| GetJustFieldSimulate (main : MainContract) : scriptE (JsError + Z).

(** One entry of the trace: a call and the answer it got. *)
Inductive obs := Obs : forall T, scriptE T -> T -> obs.
Arguments Obs {T} e a.

(** The environment: its answer to a call, given everything done so far. *)
Definition Environment : Type := forall T, scriptE T -> list obs -> T.

(** The script has no loop: a computation is a function from the trace so
    far to its result, or the error it threw, and the trace it leaves. *)
Definition Async (R : Type) : Type := Environment -> list obs -> (JsError + R) * list obs.

Definition ret {R} (r : R) : Async R := fun _ tr => (inr r, tr).

Definition bindA {R S} (t : Async R) (k : R -> Async S) : Async S :=
  fun env tr =>
    match t env tr with
    | (inl error, tr') => (inl error, tr')
    | (inr v, tr') => k v env tr'
    end.

(** a call that cannot throw *)
Definition call {T} (e : scriptE T) : Async T :=
  fun env tr => let a := env T e tr in (inr a, (tr ++ [Obs e a])%list).

(** a call that may throw, or an awaited promise that may reject *)
Definition await {T} (e : scriptE (JsError + T)) : Async T :=
  fun env tr => let a := env _ e tr in (a, (tr ++ [Obs e a])%list).

Declare Scope script_scope.
Delimit Scope script_scope with script.
Notation "x <- t ;; k" := (bindA t (fun x => k))
  (at level 100, t at next level, right associativity) : script_scope.
Notation "t ;; k" := (bindA t (fun _ => k))
  (at level 100, right associativity) : script_scope.
Local Open Scope script_scope.

Definition console_log (args : list LogArg) : Async unit := call (ConsoleLog args).

(** lines 8-13 *)
Definition setupSandbox : Async PXE :=
  env_url <- call (ProcessEnv "PXE_URL") ;;
  let PXE_URL := default "http://localhost:8080" env_url in
  pxe <- await (CreatePXEClient PXE_URL) ;;
  await (WaitForPXE pxe) ;;
  ret pxe.

(** lines 51-53 *)
Definition getMain (contractAddress : string) (wallet : option AccountWallet)
    : Async MainContract :=
  await (MainContractAt contractAddress wallet).

(** lines 15-49; [const [owner] = ...] takes the first element of the array,
    [undefined] when there is none *)
Definition main : Async unit :=
  console_log [Str "here"] ;;
  logger <- call (CreateLogger "aztec:aztec-typescript-experiments") ;;
  console_log [Str "after logger"] ;;
  pxe <- setupSandbox ;;
  console_log [Str "pxe"; Pxe pxe] ;;
  wallets <- await (GetInitialTestAccountsWallets pxe) ;;
  secretKey <- call FrRandom ;;
  salt <- call FrRandom ;;
  signingKey <- call (DeriveSigningKey secretKey) ;;
  schnorrAccount <- await (GetSchnorrAccount pxe secretKey signingKey salt) ;;
  completeAddress <- await (GetCompleteAddress schnorrAccount) ;;
  tx <- await (AccountDeployWait schnorrAccount) ;;
  wallet <- await (AccountGetWallet schnorrAccount) ;;
  mainContract <- await (MainContractDeploy wallet) ;;
  call (LoggerInfo logger ("Main Contract deployed at: " +:+ address mainContract)) ;;
  owners <- await (GetInitialTestAccountsWallets pxe) ;;
  let owner := head owners in
  console_log [Str "owner ----->"; Wallet owner] ;;
  main <- getMain (address mainContract) owner ;;
  console_log [Main main] ;;
  console_log [Str "before set_just_field"] ;;
  await (SetJustField main 214) ;;
  just_field <- await (GetJustFieldSimulate main) ;;
  console_log [Str "just_field: "; FieldValue just_field].

(** *** The script, seen from outside *)

Definition error_of {T} (a : JsError + T) : option JsError :=
  match a with
  | inl error => Some error
  | inr _ => None
  end.

(** the error with which a call threw, or its promise rejected *)
Definition thrown (o : obs) : option JsError :=
  match o with
  | Obs e a =>
      match e in scriptE T return T -> option JsError with
      | CreatePXEClient _ => error_of
      | WaitForPXE _ => error_of
      | GetInitialTestAccountsWallets _ => error_of
      | GetSchnorrAccount _ _ _ _ => error_of
      | GetCompleteAddress _ => error_of
      | AccountDeployWait _ => error_of
      | AccountGetWallet _ => error_of
      | MainContractDeploy _ => error_of
      | MainContractAt _ _ => error_of
      | SetJustField _ _ => error_of
      | GetJustFieldSimulate _ => error_of
      | _ => fun _ => None
      end a
  end.

(** the transactions a trace sent, and the contracts it simulated a read of *)
Definition transactions (tr : list obs) : list (MainContract * Z) :=
  flat_map (fun o =>
    match o with
    | Obs e _ =>
        match e with
        | SetJustField main value => [(main, value)]
        | _ => []
        end
    end) tr.

Definition simulations (tr : list obs) : list MainContract :=
  flat_map (fun o =>
    match o with
    | Obs e _ =>
        match e with
        | GetJustFieldSimulate main => [main]
        | _ => []
        end
    end) tr.

(** the lines the trace printed with [console.log] *)
Definition printed (tr : list obs) : list (list LogArg) :=
  flat_map (fun o =>
    match o with
    | Obs e _ =>
        match e with
        | ConsoleLog args => [args]
        | _ => []
        end
    end) tr.

(** *** The sandbox

    The public state of the contract at [contractAddress] after the calls of
    the trace, when the sandbox runs the contract [Main] of main.nr: a
    confirmed deployment runs the constructor, a confirmed transaction runs
    [set_just_field]. *)
Definition chain_step (contractAddress : string) (state : option Contract.PublicState)
    (o : obs) : option Contract.PublicState :=
  match o with
  | Obs e a =>
      match e in scriptE T return T -> option Contract.PublicState with
      | MainContractDeploy _ => fun a =>
          match a with
          | inr deployed =>
              if String.eqb (address deployed) contractAddress
              then Some (Contract.after Contract.constructor Contract.empty_state)
              else state
          | inl _ => state
          end
      | SetJustField main value => fun a =>
          match a with
          | inr _ =>
              if String.eqb (address main) contractAddress
              then Contract.after (Contract.set_just_field value) <$> state
              else state
          | inl _ => state
          end
      | _ => fun _ => state
      end a
  end.

Definition chain_state (contractAddress : string) (tr : list obs)
    : option Contract.PublicState :=
  foldl (chain_step contractAddress) None tr.

(** [MainContract.at(a, w)] yields a handle on the contract at [a], and a
    simulated [get_just_field] returns what the function of main.nr returns
    in the state of the contract. *)
Definition sandbox_runs_Main (env : Environment) : Prop :=
  (forall tr contractAddress wallet main,
     env _ (MainContractAt contractAddress wallet) tr = inr main ->
     address main = contractAddress)
  /\ (forall tr main value,
        env _ (GetJustFieldSimulate main) tr = inr value ->
        exists state,
          chain_state (address main) tr = Some state
          /\ value = Contract.result Contract.get_just_field state).

(** A sandbox in which every call succeeds. *)
Definition no_contract : JsError :=
  {| code := None; message := "contract not deployed" |}.

Definition sandbox : Environment :=
  fun T e tr =>
    match e in scriptE T return T with
    | ConsoleLog _ => tt
    | CreateLogger _ => {| logger_id := 0 |}
    | LoggerInfo _ _ => tt
    | ProcessEnv _ => None
    | CreatePXEClient _ => inr {| pxe_id := 0 |}
    | WaitForPXE _ => inr tt
    | GetInitialTestAccountsWallets _ => inr [{| wallet_id := 0 |}; {| wallet_id := 1 |}]
    | FrRandom => 1000 + Z.of_nat (List.length tr)
    | DeriveSigningKey secretKey => secretKey + 1
    | GetSchnorrAccount _ _ _ _ => inr {| account_id := 0 |}
    | GetCompleteAddress _ => inr {| complete_address_id := 0 |}
    | AccountDeployWait _ => inr {| tx_id := List.length tr |}
    | AccountGetWallet account => inr {| wallet_id := 100 + account_id account |}
    | MainContractDeploy _ => inr {| address := "0x04bf" |}
    | MainContractAt contractAddress _ => inr {| address := contractAddress |}
    | SetJustField _ _ => inr {| tx_id := List.length tr |}
    | GetJustFieldSimulate main =>
        match chain_state (address main) tr with
        | Some state => inr (Contract.result Contract.get_just_field state)
        | None => inl no_contract
        end
    end.

(** the same, but the account cannot be deployed *)
Definition sandbox_without_fees : Environment :=
  fun T e tr =>
    match e in scriptE T return T -> T with
    | AccountDeployWait _ => fun _ => inl timeout_error
    | _ => fun answer => answer
    end (sandbox T e tr).

End Script.


(* ===================================================================== *)
(** * Part II: properties *)
(* ===================================================================== *)

(** ** The contract *)

Section ContractProperties.
Import Contract.

Lemma read_after_write_map (k k' v : Z) (s : PublicState) :
  result (read_field_in_map k') (after (set_field_in_map k v) s) =
  if decide (k = k') then v else result (read_field_in_map k') s.
Proof.
  unfold result, after, read_field_in_map, set_field_in_map; cbn.
  rewrite lookup_insert. by case_decide.
Qed.

(** C7: whatever the state it starts from, the constructor leaves the map
    cell of key 1 holding 1 and the scalar cell [just_field] holding 700, and
    that is what the two getters then return. *)
Theorem constructor_initializes (s : PublicState) :
  cells_field_in_map (after constructor s) !! 1 = Some 1
  /\ cell_just_field (after constructor s) = 700
  /\ result (read_field_in_map 1) (after constructor s) = 1
  /\ result get_just_field (after constructor s) = 700.
Proof.
  unfold result, after, constructor, read_field_in_map, get_just_field; cbn.
  rewrite lookup_insert_eq. done.
Qed.

(** C9: write-then-read round trip: [get_just_field] after
    [set_just_field v] returns [v], and [read_field_in_map k] after
    [set_field_in_map k v] returns [v], for every key, value and state. *)
Theorem write_then_read (s : PublicState) :
  (forall v, result get_just_field (after (set_just_field v) s) = v)
  /\ (forall k v, result (read_field_in_map k) (after (set_field_in_map k v) s) = v).
Proof.
  split.
  - intros v. reflexivity.
  - intros k v. rewrite read_after_write_map. by case_decide.
Qed.

(** C10: frame: [set_just_field] leaves every cell of [field_in_map] as it
    was; [set_field_in_map k v] leaves [just_field] and every cell of a key
    other than [k] as it was; the two view functions leave the whole state
    as it was. *)
Theorem storage_frame (s : PublicState) :
  (forall v, cells_field_in_map (after (set_just_field v) s) = cells_field_in_map s)
  /\ (forall v k, result (read_field_in_map k) (after (set_just_field v) s)
                  = result (read_field_in_map k) s)
  /\ (forall k v, result get_just_field (after (set_field_in_map k v) s)
                  = result get_just_field s)
  /\ (forall k v k', k' <> k ->
        result (read_field_in_map k') (after (set_field_in_map k v) s)
        = result (read_field_in_map k') s)
  /\ after get_just_field s = s
  /\ (forall k, after (read_field_in_map k) s = s).
Proof.
  repeat split; try reflexivity.
  intros k v k' Hne. rewrite read_after_write_map. case_decide; congruence.
Qed.

(** The script of the repository: deploy, [set_just_field(214)], then
    [get_just_field()]. *)
Example script_reads_214 :
  result get_just_field (after (set_just_field 214) (after constructor empty_state)) = 214.
Proof. reflexivity. Qed.

Lemma storage_frame_witness :
  result (read_field_in_map 2) (after (set_field_in_map 1 5) empty_state)
  = result (read_field_in_map 2) empty_state.
Proof.
  apply (proj1 (proj2 (proj2 (proj2 (storage_frame empty_state))))). lia.
Defined.

End ContractProperties.

(** ** The runner *)

Section RunFacts.
Import Server.
Context (env : Environment).

Lemma observe_bind_cases {R S} (t : itree sysE R) (k : R -> itree sysE S) :
  observe (ITree.bind t k) =
  match observe t with
  | RetF r => observe (k r)
  | TauF t' => TauF (ITree.bind t' k)
  | VisF e h => VisF e (fun x => ITree.bind (h x) k)
  end.
Proof. rewrite observe_bind. destruct (observe t); reflexivity. Qed.

Lemma run_unfold {R} n (t : itree sysE R) w :
  run env n t w =
  match observe t with
  | RetF r => Done r w n
  | TauF t' => match n with O => OutOfFuel w | S n' => run env n' t' w end
  | VisF e k =>
      match n with
      | O => OutOfFuel w
      | S n' => run env n' (k (fst (perform env e w))) (snd (perform env e w))
      end
  end.
Proof. destruct n; reflexivity. Qed.

Lemma run_ret {R} n (r : R) w : run env n (Ret r) w = Done r w n.
Proof. by rewrite run_unfold. Qed.

Lemma run_tau {R} n (t : itree sysE R) w :
  run env n (Tau t) w = match n with O => OutOfFuel w | S n' => run env n' t w end.
Proof. by rewrite run_unfold. Qed.

Lemma run_trigger {T} n (e : sysE T) w :
  run env n (ITree.trigger e) w =
  match n with
  | O => OutOfFuel w
  | S n' => Done (fst (perform env e w)) (snd (perform env e w)) n'
  end.
Proof. rewrite run_unfold. cbn. destruct n; [done|]. by rewrite run_ret. Qed.

(** Running [t >>= k] is running [t] and then [k] on what is left. *)
Lemma run_bind {R S} n (t : itree sysE R) (k : R -> itree sysE S) w :
  run env n (ITree.bind t k) w =
  match run env n t w with
  | Done r w' rem => run env rem (k r) w'
  | OutOfFuel w' => OutOfFuel w'
  end.
Proof.
  revert t w. induction n as [|n IH]; intros t w;
    rewrite (run_unfold _ (ITree.bind t k)), (run_unfold _ t), observe_bind_cases;
    destruct (observe t); done.
Qed.

Lemma run_iter {I R} n (body : I -> itree sysE (I + R)) (i : I) w :
  run env n (ITree.iter body i) w =
  match run env n (body i) w with
  | Done (inl i') w' rem =>
      match rem with
      | O => OutOfFuel w'
      | S rem' => run env rem' (ITree.iter body i') w'
      end
  | Done (inr r) w' rem => Done r w' rem
  | OutOfFuel w' => OutOfFuel w'
  end.
Proof.
  rewrite (run_unfold _ (ITree.iter body i)).
  rewrite (observing_observe (unfold_aloop_ body i)).
  rewrite <- run_unfold, run_bind.
  destruct (run env n (body i) w) as [[i'|r] w' rem|w']; try done.
  - by rewrite run_tau.
  - by rewrite run_ret.
Qed.

(** A run never gains steps, and more steps do not change a finished run. *)
Lemma run_rem_le {R} n (t : itree sysE R) w r w' rem :
  run env n t w = Done r w' rem -> (rem <= n)%nat.
Proof.
  revert t w. induction n as [|n IH]; intros t w; rewrite run_unfold;
    destruct (observe t); try done.
  - intros [= _ _ <-]. lia.
  - intros [= _ _ <-]. lia.
  - intros H%IH. lia.
  - intros H%IH. lia.
Qed.

Lemma run_mono {R} n m (t : itree sysE R) w r w' rem :
  run env n t w = Done r w' rem -> run env (n + m) t w = Done r w' (rem + m).
Proof.
  revert t w. induction n as [|n IH]; intros t w;
    rewrite (run_unfold _ t w), (run_unfold (_ + m) t w); destruct (observe t);
    try done; try (by intros [= -> -> <-]); cbn; apply IH.
Qed.

(** *** The same, for the [Async] combinators *)

Lemma run_retA {R} n (r : R) w : run env n (ret r) w = Done (inr r) w n.
Proof. apply run_ret. Qed.

Lemma run_bindA {R S} n (t : Async R) (k : R -> Async S) w :
  run env n (bindA t k) w =
  match run env n t w with
  | Done (inr v) w' rem => run env rem (k v) w'
  | Done (inl e) w' rem => Done (inl e) w' rem
  | OutOfFuel w' => OutOfFuel w'
  end.
Proof.
  unfold bindA. rewrite run_bind.
  destruct (run env n t w) as [[e|v] w' rem|w']; try done. by rewrite run_ret.
Qed.

Lemma run_call {T} n (e : sysE T) w :
  run env n (call e) w =
  match n with
  | O => OutOfFuel w
  | S n' => Done (inr (fst (perform env e w))) (snd (perform env e w)) n'
  end.
Proof.
  unfold call. rewrite run_bind, run_trigger. destruct n; [done|]. by rewrite run_ret.
Qed.

Lemma run_await {T} n (e : sysE (JsError + T)) w :
  run env n (await e) w =
  match n with
  | O => OutOfFuel w
  | S n' => Done (fst (perform env e w)) (snd (perform env e w)) n'
  end.
Proof. apply run_trigger. Qed.

Lemma run_try_catch {R} n (body : Async R) (handler : JsError -> Async R) w :
  run env n (try_catch body handler) w =
  match run env n body w with
  | Done (inr v) w' rem => Done (inr v) w' rem
  | Done (inl e) w' rem => run env rem (handler e) w'
  | OutOfFuel w' => OutOfFuel w'
  end.
Proof.
  unfold try_catch. rewrite run_bind.
  destruct (run env n body w) as [[e|v] w' rem|w']; try done. by rewrite run_ret.
Qed.

Lemma run_tail_rec {I R} n (body : I -> Async (I + R)) (i : I) w :
  run env n (tail_rec body i) w =
  match run env n (body i) w with
  | Done (inr (inl i')) w' rem =>
      match rem with
      | O => OutOfFuel w'
      | S rem' => run env rem' (tail_rec body i') w'
      end
  | Done (inr (inr v)) w' rem => Done (inr v) w' rem
  | Done (inl e) w' rem => Done (inl e) w' rem
  | OutOfFuel w' => OutOfFuel w'
  end.
Proof.
  unfold tail_rec at 1. rewrite run_iter, run_bind.
  destruct (run env n (body i) w) as [[e|[i'|v]] w' rem|w']; try done;
    by rewrite run_ret.
Qed.

Lemma run_while_true {R} n (body : Async (option R)) w :
  run env n (while_true body) w =
  match run env n body w with
  | Done (inr None) w' rem =>
      match rem with
      | O => OutOfFuel w'
      | S rem' => run env rem' (while_true body) w'
      end
  | Done (inr (Some v)) w' rem => Done (inr v) w' rem
  | Done (inl e) w' rem => Done (inl e) w' rem
  | OutOfFuel w' => OutOfFuel w'
  end.
Proof.
  unfold while_true at 1. rewrite run_tail_rec, run_bindA.
  destruct (run env n body w) as [[e|[v|]] w' rem|w']; try done;
    by rewrite run_retA.
Qed.

End RunFacts.

(** ** Worlds, traces and finished runs *)

Ltac not_assign := unfold Server.assigns; cbn; intuition discriminate.

Section ReturnsFacts.
Import Server.
Context (env : Environment).

Lemma calls_app k tr tr' : calls k (tr ++ tr') = (calls k tr + calls k tr')%nat.
Proof. unfold calls. by rewrite filter_app, length_app. Qed.

Lemma extend_nil w : extend w [] = w.
Proof. destruct w. unfold extend; cbn. by rewrite app_nil_r. Qed.

Lemma extend_extend w tr tr' : extend (extend w tr) tr' = extend w (tr ++ tr').
Proof. unfold extend; cbn. by rewrite app_assoc. Qed.

Lemma perform_fst {T} (e : sysE T) w : fst (perform env e w) = answer env e w.
Proof. reflexivity. Qed.

(** A call that is not an assignment only extends the trace. *)
Lemma perform_snd {T} (e : sysE T) w :
  ~ assigns (Obs e (answer env e w)) ->
  snd (perform env e w) = extend w [Obs e (answer env e w)].
Proof.
  unfold assigns; cbn. intros H. destruct e; try reflexivity; exfalso; apply H; auto.
Qed.

Lemma perform_unit (e : sysE unit) w :
  ~ assigns (Obs e tt) -> snd (perform env e w) = extend w [Obs e tt].
Proof. intros H. rewrite perform_snd; by destruct (answer env e w). Qed.

Lemma run_call_unit n (e : sysE unit) w :
  ~ assigns (Obs e tt) ->
  run env n (call e) w =
  match n with
  | O => OutOfFuel w
  | S n' => Done (inr tt) (extend w [Obs e tt]) n'
  end.
Proof.
  intros H. rewrite run_call. destruct n; [done|].
  rewrite perform_unit by done. by destruct (fst (perform env e w)).
Qed.

(** Two runs of one program from one world agree as far as they get. *)
Lemma run_agree {R} n0 n (t : itree sysE R) w r w1 rem0 :
  run env n0 t w = Done r w1 rem0 ->
  (exists w', run env n t w = OutOfFuel w') \/ (exists rem, run env n t w = Done r w1 rem).
Proof.
  intros H0. destruct (run env n t w) as [r' w' rem'|w'] eqn:Hn; [|eauto].
  right. destruct (decide (n <= n0)%nat) as [Hle|Hgt].
  - apply (run_mono env _ (n0 - n)) in Hn.
    replace (n + (n0 - n))%nat with n0 in Hn by lia.
    rewrite H0 in Hn. injection Hn as -> -> _. eauto.
  - apply (run_mono env _ (n - n0)) in H0.
    replace (n0 + (n - n0))%nat with n in H0 by lia.
    rewrite Hn in H0. injection H0 as -> -> _. eauto.
Qed.

(** A run that needs more steps than it is given does not finish. *)
Lemma run_short {R} n0 n (t : itree sysE R) w r w1 rem0 :
  run env n0 t w = Done r w1 rem0 -> (n + rem0 < n0)%nat ->
  exists w', run env n t w = OutOfFuel w'.
Proof.
  intros H0 Hlt. destruct (run env n t w) as [r' w' rem'|w'] eqn:Hn; [|eauto].
  apply (run_mono env _ (n0 - n)) in Hn.
  replace (n + (n0 - n))%nat with n0 in Hn by lia.
  rewrite H0 in Hn. injection Hn as _ _ ->. lia.
Qed.

(** A run that finishes within [n] steps is a finished run. *)
Lemma returns_of_run {R} n (t : itree sysE R) w r w' :
  match run env n t w with
  | Done r' w'' _ => r' = r /\ w'' = w'
  | OutOfFuel _ => False
  end ->
  returns env t w r w'.
Proof.
  destruct (run env n t w) as [r' w'' rem|w''] eqn:Hrun; [|done].
  intros [-> ->]. by exists n, rem.
Qed.

Lemma returns_det {R} (t : itree sysE R) w r1 w1 r2 w2 :
  returns env t w r1 w1 -> returns env t w r2 w2 -> r1 = r2 /\ w1 = w2.
Proof.
  intros (n1 & rem1 & H1) (n2 & rem2 & H2).
  destruct (run_agree _ n2 _ _ _ _ _ H1) as [[w' H]|[rem H]]; split; congruence.
Qed.

(** *** Composing finished runs *)

Lemma returns_retA {R} (r : R) w : returns env (ret r) w (inr r) w.
Proof. exists 0%nat, 0%nat. apply run_retA. Qed.

Lemma returns_call {T} (e : sysE T) w :
  returns env (call e) w (inr (answer env e w)) (snd (perform env e w)).
Proof. exists 1%nat, 0%nat. by rewrite run_call. Qed.

Lemma returns_await {T} (e : sysE (JsError + T)) w :
  returns env (await e) w (answer env e w) (snd (perform env e w)).
Proof. exists 1%nat, 0%nat. by rewrite run_await. Qed.

Lemma returns_bindA {R S} (t : Async R) (k : R -> Async S) w v w1 r w2 :
  returns env t w (inr v) w1 -> returns env (k v) w1 r w2 ->
  returns env (bindA t k) w r w2.
Proof.
  intros (n1 & rem1 & H1) (n2 & rem2 & H2).
  exists (n1 + n2)%nat, (rem2 + rem1)%nat.
  rewrite run_bindA, (run_mono env _ n2 _ _ _ _ _ H1).
  replace (rem1 + n2)%nat with (n2 + rem1)%nat by lia. by apply run_mono.
Qed.

Lemma returns_bindA_throw {R S} (t : Async R) (k : R -> Async S) w e w1 :
  returns env t w (inl e) w1 -> returns env (bindA t k) w (inl e) w1.
Proof. intros (n & rem & H). exists n, rem. by rewrite run_bindA, H. Qed.

Lemma returns_bindA_inv {R S} (t : Async R) (k : R -> Async S) w r w2 :
  returns env (bindA t k) w r w2 ->
  (exists e, r = inl e /\ returns env t w (inl e) w2)
  \/ (exists v w1, returns env t w (inr v) w1 /\ returns env (k v) w1 r w2).
Proof.
  intros (n & rem & H). rewrite run_bindA in H.
  destruct (run env n t w) as [[e|v] w1 rem1|w1] eqn:Ht; [| |done].
  - injection H as <- <- <-. left. exists e. split; [done|]. by exists n, rem1.
  - right. exists v, w1. split; [by exists n, rem1 | by exists rem1, rem].
Qed.

Lemma returns_try_catch_ok {R} (body : Async R) handler w v w1 :
  returns env body w (inr v) w1 -> returns env (try_catch body handler) w (inr v) w1.
Proof. intros (n & rem & H). exists n, rem. by rewrite run_try_catch, H. Qed.

Lemma returns_try_catch_caught {R} (body : Async R) handler w e w1 r w2 :
  returns env body w (inl e) w1 -> returns env (handler e) w1 r w2 ->
  returns env (try_catch body handler) w r w2.
Proof.
  intros (n1 & rem1 & H1) (n2 & rem2 & H2).
  exists (n1 + n2)%nat, (rem2 + rem1)%nat.
  rewrite run_try_catch, (run_mono env _ n2 _ _ _ _ _ H1).
  replace (rem1 + n2)%nat with (n2 + rem1)%nat by lia. by apply run_mono.
Qed.

Lemma returns_try_catch_inv {R} (body : Async R) handler w r w2 :
  returns env (try_catch body handler) w r w2 ->
  (exists v, r = inr v /\ returns env body w (inr v) w2)
  \/ (exists e w1, returns env body w (inl e) w1 /\ returns env (handler e) w1 r w2).
Proof.
  intros (n & rem & H). rewrite run_try_catch in H.
  destruct (run env n body w) as [[e|v] w1 rem1|w1] eqn:Ht; [| |done].
  - right. exists e, w1. split; [by exists n, rem1 | by exists rem1, rem].
  - injection H as <- <- <-. left. exists v. split; [done|]. by exists n, rem1.
Qed.

Lemma returns_call_inv {T} (e : sysE T) w r w' :
  returns env (call e) w r w' -> r = inr (answer env e w) /\ w' = snd (perform env e w).
Proof. intros H. exact (returns_det _ _ _ _ _ _ H (returns_call e w)). Qed.

Lemma returns_await_inv {T} (e : sysE (JsError + T)) w r w' :
  returns env (await e) w r w' -> r = answer env e w /\ w' = snd (perform env e w).
Proof. intros H. exact (returns_det _ _ _ _ _ _ H (returns_await e w)). Qed.

Lemma returns_retA_inv {R} (v : R) w r w' :
  returns env (ret v) w r w' -> r = inr v /\ w' = w.
Proof. intros H. exact (returns_det _ _ _ _ _ _ H (returns_retA v w)). Qed.

(** *** Tail recursion *)

Lemma returns_tail_rec_done {I R} (body : I -> Async (I + R)) i w v w1 :
  returns env (body i) w (inr (inr v)) w1 -> returns env (tail_rec body i) w (inr v) w1.
Proof. intros (n & rem & H). exists n, rem. by rewrite run_tail_rec, H. Qed.

Lemma returns_tail_rec_again {I R} (body : I -> Async (I + R)) i w i' w1 r w2 :
  returns env (body i) w (inr (inl i')) w1 -> returns env (tail_rec body i') w1 r w2 ->
  returns env (tail_rec body i) w r w2.
Proof.
  intros (n1 & rem1 & H1) (n2 & rem2 & H2).
  exists (n1 + S n2)%nat, (rem2 + rem1)%nat.
  rewrite run_tail_rec, (run_mono env _ (S n2) _ _ _ _ _ H1).
  replace (rem1 + S n2)%nat with (S (n2 + rem1)) by lia. by apply run_mono.
Qed.

Lemma returns_while_true_done {R} (body : Async (option R)) w v w1 :
  returns env body w (inr (Some v)) w1 -> returns env (while_true body) w (inr v) w1.
Proof. intros (n & rem & H). exists n, rem. by rewrite run_while_true, H. Qed.

Lemma returns_while_true_again {R} (body : Async (option R)) w w1 r w2 :
  returns env body w (inr None) w1 -> returns env (while_true body) w1 r w2 ->
  returns env (while_true body) w r w2.
Proof.
  intros (n1 & rem1 & H1) (n2 & rem2 & H2).
  exists (n1 + S n2)%nat, (rem2 + rem1)%nat.
  rewrite run_while_true, (run_mono env _ (S n2) _ _ _ _ _ H1).
  replace (rem1 + S n2)%nat with (S (n2 + rem1)) by lia. by apply run_mono.
Qed.

(** A finished run of a tail-recursive function is a finite chain of runs of
    its body. *)
Lemma tail_rec_ind {I R} (body : I -> Async (I + R))
    (P : I -> World -> JsError + R -> World -> Prop) :
  (forall i w v w1, returns env (body i) w (inr (inr v)) w1 -> P i w (inr v) w1) ->
  (forall i w e w1, returns env (body i) w (inl e) w1 -> P i w (inl e) w1) ->
  (forall i w i' w1 r w2,
     returns env (body i) w (inr (inl i')) w1 ->
     returns env (tail_rec body i') w1 r w2 -> P i' w1 r w2 -> P i w r w2) ->
  forall i w r w', returns env (tail_rec body i) w r w' -> P i w r w'.
Proof.
  intros Hdone Hthrow Hagain i w r w' (n & rem & H).
  revert i w H. induction (lt_wf n) as [n _ IH]. intros i w H.
  rewrite run_tail_rec in H.
  destruct (run env n (body i) w) as [[e|[i'|v]] w1 rem1|w1] eqn:Hb; [| | |done].
  - injection H as <- <- <-. apply Hthrow. by exists n, rem1.
  - destruct rem1 as [|rem1]; [done|].
    apply run_rem_le in Hb as Hle.
    apply (Hagain i w i' w1); [by exists n, (S rem1) | by exists rem1, rem |].
    apply (IH rem1); [lia | done].
  - injection H as <- <- <-. apply Hdone. by exists n, rem1.
Qed.

End ReturnsFacts.

(** ** The readiness prober *)

Section Prober.
Import Server.
Context (env : Environment).

Lemma run_call_bind {T R} n (e : sysE T) (k : T -> Async R) w :
  run env (S n) (bindA (call e) k) w =
  run env n (k (answer env e w)) (snd (perform env e w)).
Proof. by rewrite run_bindA, run_call. Qed.

Lemma run_await_bind {T R} n (e : sysE (JsError + T)) (k : T -> Async R) w :
  run env (S n) (bindA (await e) k) w =
  match answer env e w with
  | inr v => run env n (k v) (snd (perform env e w))
  | inl err => Done (inl err) (snd (perform env e w)) n
  end.
Proof. rewrite run_bindA, run_await, perform_fst. by destruct (answer env e w). Qed.

Lemma ensurePXEReady_unfold :
  ensurePXEReady =
  bindA (console_log [Str "⏳ Waiting for PXE to be ready..."])
        (fun _ => while_true probe_once).
Proof. reflexivity. Qed.

(** One turn of the loop takes three steps: the probe, a log line, and the
    pause or the second log line. *)
Lemma probe_once_run m w :
  run env (3 + m) probe_once w =
  Done (inr (if ready (answer env (Fetch status_url) w) then Some tt else None))
       (extend w (probe_obs (answer env (Fetch status_url) w))) m.
Proof.
  unfold probe_once, console_log, sleep.
  rewrite run_bindA, run_try_catch. cbn [Nat.add]. rewrite run_await_bind.
  rewrite perform_snd by not_assign. unfold ready, probe_obs.
  destruct (answer env (Fetch status_url) w) as [err|response].
  - rewrite run_call_bind, run_retA, run_call_bind, run_retA.
    rewrite !perform_unit by not_assign. by rewrite !extend_extend.
  - rewrite run_call_bind, perform_unit by not_assign.
    destruct (String.eqb (statusText response) "OK").
    + rewrite run_call_bind, !run_retA, perform_unit by not_assign.
      by rewrite !extend_extend.
    + rewrite run_retA, run_call_bind, run_retA, perform_unit by not_assign.
      by rewrite !extend_extend.
Qed.

Lemma calls_probe_obs reply : calls KFetch (probe_obs reply) = 1%nat.
Proof.
  destruct reply as [err|response]; [done|].
  unfold probe_obs. by destruct (String.eqb (statusText response) "OK").
Qed.

Lemma calls_after_probe w reply :
  calls KFetch (trace (extend w (probe_obs reply))) = S (calls KFetch (trace w)).
Proof. unfold extend; cbn [trace]. rewrite calls_app, calls_probe_obs. lia. Qed.

(** The loop returns at the first ready reply. *)
Lemma prober_loop_returns k : forall w,
  (forall i, (i < k)%nat ->
     ready (env _ (Fetch status_url) (calls KFetch (trace w) + i)%nat) = false) ->
  ready (env _ (Fetch status_url) (calls KFetch (trace w) + k)%nat) = true ->
  returns env (while_true probe_once) w (inr tt)
          (extend w (probes_trace env (calls KFetch (trace w)) k)).
Proof.
  induction k as [|k IH]; intros w Hfail Hok.
  - apply returns_while_true_done. exists 3%nat, 0%nat.
    rewrite (probe_once_run 0). unfold answer; cbn [kind_of].
    rewrite Nat.add_0_r in Hok. rewrite Hok. cbn [probes_trace].
    by rewrite app_nil_r.
  - eapply returns_while_true_again.
    + exists 3%nat, 0%nat. rewrite (probe_once_run 0). unfold answer; cbn [kind_of].
      specialize (Hfail 0%nat ltac:(lia)). rewrite Nat.add_0_r in Hfail.
      rewrite Hfail. reflexivity.
    + set (w1 := extend w _).
      assert (Hc : calls KFetch (trace w1) = S (calls KFetch (trace w)))
        by apply calls_after_probe.
      specialize (IH w1). rewrite Hc in IH.
      replace (extend w (probes_trace env (calls KFetch (trace w)) (S k)))
        with (extend w1 (probes_trace env (S (calls KFetch (trace w))) k))
        by (subst w1; by rewrite extend_extend).
      apply IH.
      * intros i Hi. rewrite Nat.add_succ_comm. apply Hfail. lia.
      * by rewrite Nat.add_succ_comm.
Qed.

(** As long as no reply is ready, the loop keeps going. *)
Lemma prober_loop_out_of_fuel n : forall w,
  (forall i, (i < n)%nat ->
     ready (env _ (Fetch status_url) (calls KFetch (trace w) + i)%nat) = false) ->
  exists w', run env n (while_true probe_once) w = @OutOfFuel (JsError + unit) w'.
Proof.
  induction (lt_wf n) as [n _ IH]. intros w Hfail.
  rewrite run_while_true.
  destruct (le_lt_dec 3 n) as [Hge|Hlt].
  - assert (exists m, n = (3 + m)%nat) as [m ->] by (exists (n - 3)%nat; lia).
    rewrite probe_once_run. unfold answer at 1; cbn [kind_of].
    specialize (Hfail 0%nat ltac:(lia)) as H0. rewrite Nat.add_0_r in H0. rewrite H0.
    destruct m as [|m]; [eauto|].
    apply (IH m); [lia|].
    intros i Hi. rewrite calls_after_probe, Nat.add_succ_comm. apply Hfail. lia.
  - destruct (run_short env 3 n probe_once w _ _ 0%nat (probe_once_run 0 w)) as [w' ->];
      [lia | eauto].
Qed.

Lemma first_ready_or_none (f : nat -> bool) n :
  (exists k, (k < n)%nat /\ f k = true /\ forall i, (i < k)%nat -> f i = false)
  \/ (forall i, (i < n)%nat -> f i = false).
Proof.
  induction n as [|n [(k & Hk & Hok & Hfail)|Hnone]].
  - right. intros i Hi. lia.
  - left. exists k. split; [lia | done].
  - destruct (f n) eqn:Hn.
    + left. exists n. split; [lia | done].
    + right. intros i Hi. destruct (decide (i = n)) as [->|]; [done|]. apply Hnone. lia.
Qed.

Lemma calls_probes_trace c k : calls KFetch (probes_trace env c k) = S k.
Proof.
  revert c. induction k as [|k IH]; intros c; cbn [probes_trace];
    rewrite calls_app, calls_probe_obs; [done|]. by rewrite IH.
Qed.

Lemma probes_and_pauses_of_app tr tr' :
  probes_and_pauses_of (tr ++ tr') = probes_and_pauses_of tr ++ probes_and_pauses_of tr'.
Proof. apply filter_app. Qed.

Lemma probes_and_pauses_of_probes c k :
  (forall i, (i < k)%nat -> ready (env _ (Fetch status_url) (c + i)%nat) = false) ->
  ready (env _ (Fetch status_url) (c + k)%nat) = true ->
  probes_and_pauses_of (probes_trace env c k) = probes_and_pauses env c k.
Proof.
  revert c. induction k as [|k IH]; intros c Hfail Hok; cbn [probes_trace probes_and_pauses].
  - rewrite Nat.add_0_r in Hok. rewrite app_nil_r.
    destruct (env _ (Fetch status_url) c) as [err|response]; [done|].
    cbn in Hok. unfold probe_obs. by rewrite Hok.
  - rewrite probes_and_pauses_of_app, IH.
    + specialize (Hfail 0%nat ltac:(lia)). rewrite Nat.add_0_r in Hfail.
      destruct (env _ (Fetch status_url) c) as [err|response]; [done|].
      cbn in Hfail. unfold probe_obs. by rewrite Hfail.
    + intros i Hi. rewrite Nat.add_succ_comm. apply Hfail. lia.
    + by rewrite Nat.add_succ_comm.
Qed.

(** The behaviour of the prober: when it returns, when it does not, and what
    it leaves in the trace. *)
Lemma prober_behaviour (w : World) :
  let c := calls KFetch (trace w) in
  let reply i := env _ (Fetch status_url) (c + i)%nat in
  (forall k,
     (forall i, (i < k)%nat -> ready (reply i) = false) -> ready (reply k) = true ->
     returns env ensurePXEReady w (inr tt) (extend w (prober_trace env c k))
     /\ calls KFetch (prober_trace env c k) = S k
     /\ probes_and_pauses_of (prober_trace env c k) = probes_and_pauses env c k)
  /\ ((forall i, ready (reply i) = false) -> diverges env ensurePXEReady w)
  /\ (forall r w',
        returns env ensurePXEReady w r w' ->
        r = inr tt
        /\ exists k, ready (reply k) = true
             /\ (forall i, (i < k)%nat -> ready (reply i) = false)
             /\ w' = extend w (prober_trace env c k)).
Proof.
  intros c reply.
  set (w0 := extend w [Obs (ConsoleLog [Str "⏳ Waiting for PXE to be ready..."]) tt]).
  assert (Hlog : returns env (console_log [Str "⏳ Waiting for PXE to be ready..."])
                         w (inr tt) w0).
  { exists 1%nat, 0%nat. unfold console_log. by rewrite run_call_unit by not_assign. }
  assert (Hc0 : calls KFetch (trace w0) = c).
  { subst w0 c. unfold extend; cbn [trace]. rewrite calls_app.
    change (calls KFetch [_]) with 0%nat. lia. }
  assert (Hret : forall k,
     (forall i, (i < k)%nat -> ready (reply i) = false) -> ready (reply k) = true ->
     returns env ensurePXEReady w (inr tt) (extend w (prober_trace env c k))).
  { intros k Hfail Hok. rewrite ensurePXEReady_unfold.
    eapply returns_bindA; [exact Hlog|].
    replace (extend w (prober_trace env c k)) with (extend w0 (probes_trace env c k))
      by (subst w0; by rewrite extend_extend).
    rewrite <- Hc0. apply prober_loop_returns; by rewrite Hc0. }
  split; [|split].
  - intros k Hfail Hok. split; [by apply Hret|]. split.
    + unfold prober_trace.
      change (calls KFetch (probes_trace env c k) = S k). apply calls_probes_trace.
    + unfold prober_trace.
      change (probes_and_pauses_of (probes_trace env c k) = probes_and_pauses env c k).
      by apply probes_and_pauses_of_probes.
  - intros Hnone n. rewrite ensurePXEReady_unfold, run_bindA.
    unfold console_log. rewrite run_call_unit by not_assign.
    destruct n as [|n]; [eauto|]. fold w0.
    apply prober_loop_out_of_fuel. intros i _. rewrite Hc0. apply Hnone.
  - intros r w' Hr.
    assert (Hk : exists k, ready (reply k) = true
                   /\ forall i, (i < k)%nat -> ready (reply i) = false).
    { destruct Hr as (n & rem & Hr).
      destruct (first_ready_or_none (fun i => ready (reply i)) n)
        as [(k & _ & Hok & Hfail)|Hnone]; [eauto|].
      exfalso. rewrite ensurePXEReady_unfold, run_bindA in Hr.
      unfold console_log in Hr. rewrite run_call_unit in Hr by not_assign.
      destruct n as [|n]; [done|]. fold w0 in Hr.
      destruct (prober_loop_out_of_fuel n w0) as [w'' Hw''].
      - intros i Hi. rewrite Hc0. apply Hnone. lia.
      - cbn in Hr. congruence. }
    destruct Hk as (k & Hok & Hfail).
    destruct (returns_det env _ _ _ _ _ _ Hr (Hret k Hfail Hok)) as [-> ->].
    split; [done|]. by exists k.
Qed.

(** C2: [ensurePXEReady] returns exactly when a status response with status
    text ["OK"] arrives.  Numbering the replies of the status endpoint from
    the call on: (1) if reply [k] is the first ready one, the call returns
    normally after exactly [k + 1] probes, with a pause of 5000 ms after
    each of the first [k] and none after the last; (2) if no reply is ever
    ready, whether it is another status text or a thrown error, the call
    never returns; (3) whenever the call returns, it returns normally, never
    with an error, and at the first ready reply. *)
Theorem ensurePXEReady_spec (w : World) :
  let c := calls KFetch (trace w) in
  let reply i := env _ (Fetch status_url) (c + i)%nat in
  (forall k,
     (forall i, (i < k)%nat -> ready (reply i) = false) -> ready (reply k) = true ->
     returns env ensurePXEReady w (inr tt) (extend w (prober_trace env c k))
     /\ calls KFetch (prober_trace env c k) = S k
     /\ probes_and_pauses_of (prober_trace env c k) = probes_and_pauses env c k)
  /\ ((forall i, ready (reply i) = false) -> diverges env ensurePXEReady w)
  /\ (forall r w',
        returns env ensurePXEReady w r w' ->
        r = inr tt
        /\ exists k, ready (reply k) = true
             /\ (forall i, (i < k)%nat -> ready (reply i) = false)
             /\ w' = extend w (prober_trace env c k)).
Proof. exact (prober_behaviour w). Qed.

End Prober.

(** ** The retry wrapper *)

Section RetryWrapper.
Import Server.
Context (env : Environment).

Lemma returns_log_bind {R} args (k : unit -> Async R) w r w' :
  returns env (k tt) (extend w [Obs (ConsoleLog args) tt]) r w' ->
  returns env (bindA (console_log args) k) w r w'.
Proof.
  intros H. eapply returns_bindA; [|exact H].
  exists 1%nat, 0%nat. unfold console_log. by rewrite run_call_unit by not_assign.
Qed.

Lemma returns_unit_call_bind_inv {R} (e : sysE unit) (k : unit -> Async R) w r w' :
  ~ assigns (Obs e tt) ->
  returns env (bindA (call e) k) w r w' ->
  returns env (k tt) (extend w [Obs e tt]) r w'.
Proof.
  intros Hna [(err & _ & H)|(v & w1 & H & Hk)]%returns_bindA_inv.
  - by apply returns_call_inv in H as [? _].
  - apply returns_call_inv in H as [_ ->]. rewrite perform_unit in Hk by done.
    by destruct v.
Qed.

Lemma deployContractWithRetry_unfold :
  deployContractWithRetry = tail_rec deploy_attempt tt.
Proof. reflexivity. Qed.

(** One attempt whose deployer run succeeds. *)
Lemma deploy_attempt_success w w1 w2 res :
  returns env ensurePXEReady w (inr tt) w1 ->
  returns env deployContract (extend w1 deploying) (inr res) w2 ->
  returns env (deploy_attempt tt) w (inr (inr res)) (extend w2 (deployed_at res)).
Proof.
  intros Hp Hd. unfold deploy_attempt.
  eapply returns_bindA; [exact Hp|].
  apply returns_try_catch_ok, returns_log_bind.
  eapply returns_bindA; [exact Hd|].
  apply returns_log_bind, returns_retA.
Qed.

(** One attempt whose deployer run fails. *)
Lemma deploy_attempt_failure w w1 w2 error :
  returns env ensurePXEReady w (inr tt) w1 ->
  returns env deployContract (extend w1 deploying) (inl error) w2 ->
  returns env (deploy_attempt tt) w (inr (inl tt)) (extend w2 (failed_and_paused error)).
Proof.
  intros Hp Hd. unfold deploy_attempt.
  eapply returns_bindA; [exact Hp|].
  eapply returns_try_catch_caught.
  - apply returns_log_bind, returns_bindA_throw, Hd.
  - unfold console_error, sleep.
    eapply returns_bindA.
    { exists 1%nat, 0%nat. by rewrite run_call_unit by not_assign. }
    eapply returns_bindA.
    { exists 1%nat, 0%nat. by rewrite run_call_unit by not_assign. }
    rewrite extend_extend. apply returns_retA.
Qed.

(** However one attempt ends, it ended in one of these two ways. *)
Lemma deploy_attempt_inv w r w' :
  returns env (deploy_attempt tt) w r w' ->
  exists w1 w2,
    returns env ensurePXEReady w (inr tt) w1 /\
    ((exists res, returns env deployContract (extend w1 deploying) (inr res) w2
                  /\ r = inr (inr res) /\ w' = extend w2 (deployed_at res))
     \/ (exists error, returns env deployContract (extend w1 deploying) (inl error) w2
                  /\ r = inr (inl tt) /\ w' = extend w2 (failed_and_paused error))).
Proof.
  unfold deploy_attempt.
  intros [(err & _ & Hp)|([] & w1 & Hp & Htry)]%returns_bindA_inv.
  { by apply (prober_behaviour env w) in Hp as [? _]. }
  apply returns_try_catch_inv in Htry as [(v & -> & Hok)|(error & w2 & Hbody & Hcatch)].
  - apply returns_unit_call_bind_inv in Hok; [|not_assign].
    apply returns_bindA_inv in Hok as [(? & ? & _)|(res & w2 & Hd & Hok)]; [done|].
    apply returns_unit_call_bind_inv in Hok; [|not_assign].
    apply returns_retA_inv in Hok as [[= ->] ->].
    exists w1, w2. split; [done|]. left. by exists res.
  - apply returns_unit_call_bind_inv in Hbody; [|not_assign].
    apply returns_bindA_inv in Hbody as [(? & [= <-] & Hd)|(res & w3 & Hd & Hok)].
    + unfold console_error, sleep in Hcatch.
      apply returns_unit_call_bind_inv in Hcatch; [|not_assign].
      apply returns_unit_call_bind_inv in Hcatch; [|not_assign].
      apply returns_retA_inv in Hcatch as [-> ->]. rewrite extend_extend.
      exists w1, w2. split; [done|]. right. by exists error.
    + apply returns_unit_call_bind_inv in Hok; [|not_assign].
      by apply returns_retA_inv in Hok as [? _].
Qed.

(** The runs of the retry wrapper are the sequences of attempts that end with
    a success. *)
Lemma retry_behaviour (w : World) :
  (forall errors res w',
     retry_scenario env w errors res w' ->
     returns env deployContractWithRetry w (inr res) w')
  /\ (forall r w',
        returns env deployContractWithRetry w r w' ->
        exists errors res, r = inr res /\ retry_scenario env w errors res w').
Proof.
  split.
  - intros errors. revert w.
    induction errors as [|error errors IH]; intros w res w' (w1 & w2 & Hp & Hs);
      rewrite deployContractWithRetry_unfold.
    + destruct Hs as [Hd ->].
      apply returns_tail_rec_done. by eapply deploy_attempt_success.
    + destruct Hs as [Hd Hs].
      eapply returns_tail_rec_again; [by eapply deploy_attempt_failure|].
      rewrite <- deployContractWithRetry_unfold. by apply IH.
  - intros r w'. rewrite deployContractWithRetry_unfold.
    assert (Hind : forall (i : unit) w r w',
      returns env (tail_rec deploy_attempt i) w r w' ->
      exists errors res, r = inr res /\ retry_scenario env w errors res w');
      [|by apply Hind].
    clear w r w'. apply tail_rec_ind.
    + intros [] w v w' (w1 & w2 & Hp & [(res & Hd & [= <-] & ->)|(? & _ & ? & _)])%deploy_attempt_inv;
        [|done].
      exists [], v. split; [done|]. exists w1, w2. by repeat split.
    + intros [] w e w' (w1 & w2 & _ & [(? & _ & ? & _)|(? & _ & ? & _)])%deploy_attempt_inv;
        done.
    + intros [] w [] w1 r w2
        (w1' & w2' & Hp & [(? & _ & ? & _)|(error & Hd & _ & ->)])%deploy_attempt_inv
        _ (errors & res & -> & Hs); [done|].
      exists (error :: errors), res. split; [done|]. exists w1', w2'. by repeat split.
Qed.

End RetryWrapper.

(** ** What programs can do: a syntax-directed safety argument *)

Section Emits.
Import Server.
Context (P : obs -> Prop).

Lemma emits_ret {R} (r : R) : emits P (Ret r : itree sysE R).
Proof.
  intros env n w. exists []. rewrite run_ret; cbn. by rewrite extend_nil.
Qed.

Lemma emits_trigger {T} (e : sysE T) :
  (forall a, P (Obs e a)) -> (forall a, ~ assigns (Obs e a)) -> emits P (ITree.trigger e).
Proof.
  intros HP Hna env n w. rewrite run_trigger. destruct n as [|n]; cbn [world_of].
  - exists []. by rewrite extend_nil.
  - exists [Obs e (answer env e w)]. rewrite perform_snd by apply Hna.
    repeat split; repeat constructor; [apply HP | apply Hna].
Qed.

Lemma emits_bind {R S} (t : itree sysE R) (k : R -> itree sysE S) :
  emits P t -> (forall r, emits P (k r)) -> emits P (ITree.bind t k).
Proof.
  intros Ht Hk env n w. rewrite run_bind.
  destruct (Ht env n w) as (tr1 & Hw1 & HP1 & Hna1).
  destruct (run env n t w) as [r w1 rem|w1]; cbn in Hw1; subst w1; [|by exists tr1].
  destruct (Hk r env rem (extend w tr1)) as (tr2 & Hw2 & HP2 & Hna2).
  exists (tr1 ++ tr2). rewrite Hw2, extend_extend.
  repeat split; by apply Forall_app.
Qed.

Lemma emits_iter {I R} (body : I -> itree sysE (I + R)) (i : I) :
  (forall i, emits P (body i)) -> emits P (ITree.iter body i).
Proof.
  intros Hbody env n. revert i. induction (lt_wf n) as [n _ IH]. intros i w.
  rewrite run_iter.
  destruct (Hbody i env n w) as (tr1 & Hw1 & HP1 & Hna1).
  destruct (run env n (body i) w) as [[i'|r] w1 rem|w1] eqn:Hb; cbn in Hw1; subst w1;
    [|by exists tr1..].
  destruct rem as [|rem]; [by exists tr1|].
  apply run_rem_le in Hb.
  destruct (IH rem ltac:(lia) i' (extend w tr1)) as (tr2 & Hw2 & HP2 & Hna2).
  exists (tr1 ++ tr2). rewrite Hw2, extend_extend.
  repeat split; by apply Forall_app.
Qed.

Lemma emits_retA {R} (r : R) : emits P (ret r).
Proof. apply emits_ret. Qed.

Lemma emits_call {T} (e : sysE T) :
  (forall a, P (Obs e a)) -> (forall a, ~ assigns (Obs e a)) -> emits P (call e).
Proof. intros. apply emits_bind; [by apply emits_trigger | intros; apply emits_ret]. Qed.

Lemma emits_await {T} (e : sysE (JsError + T)) :
  (forall a, P (Obs e a)) -> (forall a, ~ assigns (Obs e a)) -> emits P (await e).
Proof. apply emits_trigger. Qed.

Lemma emits_bindA {R S} (t : Async R) (k : R -> Async S) :
  emits P t -> (forall v, emits P (k v)) -> emits P (bindA t k).
Proof. intros Ht Hk. apply emits_bind; [done|]. intros [e|v]; [apply emits_ret | apply Hk]. Qed.

Lemma emits_try_catch {R} (body : Async R) (handler : JsError -> Async R) :
  emits P body -> (forall e, emits P (handler e)) -> emits P (try_catch body handler).
Proof. intros Ht Hk. apply emits_bind; [done|]. intros [e|v]; [apply Hk | apply emits_ret]. Qed.

Lemma emits_tail_rec {I R} (body : I -> Async (I + R)) (i : I) :
  (forall i, emits P (body i)) -> emits P (tail_rec body i).
Proof.
  intros Hbody. apply emits_iter. intros i'. apply emits_bind; [done|].
  intros [e|[i''|v]]; apply emits_ret.
Qed.

Lemma emits_while_true {R} (body : Async (option R)) :
  emits P body -> emits P (while_true body).
Proof.
  intros Hbody. apply emits_tail_rec. intros _. apply emits_bindA; [done|].
  intros [v|]; apply emits_retA.
Qed.

(** A finished run of such a program leaves an extension of the world. *)
Lemma emits_returns {R} (t : itree sysE R) env w r w' :
  emits P t -> returns env t w r w' ->
  exists tr, w' = extend w tr /\ Forall P tr /\ Forall (fun o => ~ assigns o) tr.
Proof.
  intros Ht (n & rem & Hr). destruct (Ht env n w) as (tr & Hw & HP).
  rewrite Hr in Hw. by exists tr.
Qed.

End Emits.

(** the calls of a program, one by one *)
Ltac emits_step :=
  lazymatch goal with
  | |- Server.emits _ (Server.bindA _ _) => apply emits_bindA
  | |- Server.emits _ (Server.try_catch _ _) => apply emits_try_catch
  | |- Server.emits _ (Server.while_true _) => apply emits_while_true
  | |- Server.emits _ (Server.tail_rec _ _) => apply emits_tail_rec
  | |- Server.emits _ (Server.ret _) => apply emits_retA
  | |- Server.emits _ (Server.call _) =>
      apply emits_call; [intros; try done | intros; not_assign]
  | |- Server.emits _ (Server.await _) =>
      apply emits_await; [intros; try done | intros; not_assign]
  end.

Section EmitsPrograms.
Import Server.

Lemma emits_ensurePXEReady : emits quiet ensurePXEReady.
Proof.
  unfold ensurePXEReady, console_log, sleep.
  repeat (emits_step; intros).
  - destruct (String.eqb _ _); repeat (emits_step; intros).
  - match goal with b : bool |- _ => destruct b end; repeat (emits_step; intros).
Qed.

Lemma emits_deployContract : emits quiet deployContract.
Proof.
  unfold deployContract, setupSandbox, console_log.
  repeat (emits_step; intros).
Qed.

Lemma emits_deployContractWithRetry : emits quiet deployContractWithRetry.
Proof.
  unfold deployContractWithRetry, console_log, console_error, sleep.
  emits_step; intros. emits_step; [apply emits_ensurePXEReady|].
  intros. emits_step.
  - emits_step; [emits_step|]. intros.
    emits_step; [apply emits_deployContract|]. intros.
    repeat (emits_step; intros).
  - intros. repeat (emits_step; intros).
Qed.

Lemma emits_onMessage ws message : emits (fun _ => True) (onMessage ws message).
Proof. unfold onMessage, console_log. repeat (emits_step; intros). Qed.

Lemma emits_onClose port : emits (fun _ => True) (onClose port).
Proof. unfold onClose, console_log. repeat (emits_step; intros). Qed.

Lemma emits_onConnection port ws : emits (fun _ => True) (onConnection port ws).
Proof. unfold onConnection, console_log. repeat (emits_step; intros). Qed.

End EmitsPrograms.

(** ** What the attempts of the retry wrapper leave in the trace *)

Section RetryTrace.
Import Server.
Context (env : Environment).

(** calls that are none of: a logged failure, a pause of 10000 ms, the first
    line of the prober, the first line of the deployer *)
Local Abbreviation plain :=
  (fun o => logged_failures [o] = [] /\ long_pauses [o] = [] /\ starts [o] = []).

Lemma logged_failures_app tr tr' :
  logged_failures (tr ++ tr') = logged_failures tr ++ logged_failures tr'.
Proof. apply flat_map_app. Qed.

Lemma long_pauses_app tr tr' : long_pauses (tr ++ tr') = long_pauses tr ++ long_pauses tr'.
Proof. apply flat_map_app. Qed.

Lemma starts_app tr tr' : starts (tr ++ tr') = starts tr ++ starts tr'.
Proof. apply flat_map_app. Qed.

Lemma plain_nothing tr :
  Forall plain tr -> logged_failures tr = [] /\ long_pauses tr = [] /\ starts tr = [].
Proof.
  induction 1 as [|o tr (H1 & H2 & H3) _ (IH1 & IH2 & IH3)]; [done|].
  change (o :: tr) with ([o] ++ tr).
  by rewrite logged_failures_app, long_pauses_app, starts_app, H1, H2, H3, IH1, IH2, IH3.
Qed.

Lemma plain_probes c k : Forall plain (probes_trace env c k).
Proof.
  revert c. induction k as [|k IH]; intros c; cbn [probes_trace]; apply Forall_app_2;
    try done; try apply IH.
  all: unfold probe_obs; destruct (env _ (Fetch status_url) c) as [err|response];
    [by repeat constructor|];
    destruct (String.eqb (statusText response) "OK"); by repeat constructor.
Qed.

(** A finished call of the prober started once, and did nothing else of
    note. *)
Lemma prober_trace_facts w r w' :
  returns env ensurePXEReady w r w' ->
  exists tr, w' = extend w tr
    /\ logged_failures tr = [] /\ long_pauses tr = [] /\ starts tr = [true].
Proof.
  intros (_ & k & _ & _ & ->)%prober_behaviour.
  eexists. split; [reflexivity|]. unfold prober_trace.
  destruct (plain_nothing _ (plain_probes (calls KFetch (trace w)) k)) as (H1 & H2 & H3).
  change (?o :: probes_trace env ?c k) with ([o] ++ probes_trace env c k).
  by rewrite logged_failures_app, long_pauses_app, starts_app, H1, H2, H3.
Qed.

(** A finished run of the deployer started once, and did nothing else of
    note. *)
Lemma deployContract_trace_facts w r w' :
  returns env deployContract w r w' ->
  exists tr, w' = extend w tr
    /\ logged_failures tr = [] /\ long_pauses tr = [] /\ starts tr = [false].
Proof.
  intros (n & rem & Hrun). unfold deployContract, console_log in Hrun.
  destruct n as [|n]; [by rewrite run_bindA, run_call in Hrun|].
  rewrite run_call_bind, perform_unit in Hrun by not_assign.
  match type of Hrun with
  | run env n ?t ?w0 = _ =>
      assert (He : emits plain t) by (unfold setupSandbox; repeat (emits_step; intros));
      destruct (He env n w0) as (tr & Hw & Hplain & _)
  end.
  rewrite Hrun in Hw. cbn [world_of] in Hw. subst w'.
  eexists. rewrite extend_extend. split; [reflexivity|].
  destruct (plain_nothing _ Hplain) as (H1 & H2 & H3).
  by rewrite logged_failures_app, long_pauses_app, starts_app, H1, H2, H3.
Qed.

(** What a sequence of attempts leaves in the trace: the errors logged are
    the errors of the failed attempts, there is one pause of 10000 ms for
    each, and calls of the prober alternate with runs of the deployer. *)
Lemma retry_scenario_facts errors : forall w res w',
  retry_scenario env w errors res w' ->
  exists tr, w' = extend w tr
    /\ logged_failures tr = errors
    /\ long_pauses tr = replicate (List.length errors) 10000
    /\ starts tr = alternating (S (List.length errors)).
Proof.
  induction errors as [|error errors IH]; intros w res w' (w1 & w2 & Hp & Hs).
  - destruct Hs as [Hd ->].
    apply prober_trace_facts in Hp as (tr1 & -> & Hf1 & Hp1 & Hs1).
    apply deployContract_trace_facts in Hd as (tr2 & -> & Hf2 & Hp2 & Hs2).
    eexists. rewrite !extend_extend. split; [reflexivity|].
    rewrite !logged_failures_app, !long_pauses_app, !starts_app.
    by rewrite Hf1, Hp1, Hs1, Hf2, Hp2, Hs2.
  - destruct Hs as [Hd Hs].
    apply prober_trace_facts in Hp as (tr1 & -> & Hf1 & Hp1 & Hs1).
    apply deployContract_trace_facts in Hd as (tr2 & -> & Hf2 & Hp2 & Hs2).
    apply IH in Hs as (tr3 & -> & Hf3 & Hp3 & Hs3).
    eexists. rewrite !extend_extend. split; [reflexivity|].
    rewrite !logged_failures_app, !long_pauses_app, !starts_app.
    by rewrite Hf1, Hp1, Hs1, Hf2, Hp2, Hs2, Hf3, Hp3, Hs3.
Qed.

(** C1: the retry wrapper.  (1) If the deployer fails with each of [errors]
    in turn and then succeeds with [res], each attempt being preceded by a
    call of the prober that returns, each failure followed by the error
    being logged and a pause of 10000 ms, then [deployContractWithRetry]
    returns [res].  (2) Whenever [deployContractWithRetry] returns, it
    returns a deployment result, never an error, at the end of such a
    sequence of attempts.  (3) Such a sequence leaves in the trace: the
    errors of the failed attempts, logged in order; one pause of 10000 ms
    for each of them; and, alternating, a call of the prober and a run of
    the deployer, once more than there were failures. *)
Theorem deployContractWithRetry_spec (w : World) :
  (forall errors res w',
     retry_scenario env w errors res w' ->
     returns env deployContractWithRetry w (inr res) w')
  /\ (forall r w',
        returns env deployContractWithRetry w r w' ->
        exists errors res, r = inr res /\ retry_scenario env w errors res w')
  /\ (forall errors res w',
        retry_scenario env w errors res w' ->
        exists tr, w' = extend w tr
          /\ logged_failures tr = errors
          /\ long_pauses tr = replicate (List.length errors) 10000
          /\ starts tr = alternating (S (List.length errors))).
Proof.
  split; [apply retry_behaviour|]. split; [apply retry_behaviour|].
  intros errors res w'. apply retry_scenario_facts.
Qed.

End RetryTrace.

(** ** One bind attempt of the bridge *)

Section Bridge.
Import Server.
Context (env : Environment).

Lemma startWebSocketServer_unfold port :
  startWebSocketServer port = tail_rec bridge_attempt port.
Proof. reflexivity. Qed.

(** One attempt takes three steps when the constructor returns and two when
    it throws. *)
Lemma bridge_attempt_run m port w :
  let reply := answer env (NewWebSocketServer port) w in
  run env ((match reply with inr _ => 3 | inl _ => 2 end) + m) (bridge_attempt port) w =
  Done (inr (if caught_in_use reply then inl (port + 1) else inr tt))
       (extend w (bind_obs port reply)) m.
Proof.
  intros reply. unfold bridge_attempt, console_log, console_error.
  rewrite run_try_catch.
  assert (Hreply : answer env (NewWebSocketServer port) w = reply) by done.
  unfold caught_in_use, bind_obs.
  destruct reply as [error|wss]; cbn [Nat.add]; rewrite run_await_bind, Hreply;
    rewrite perform_snd, Hreply by not_assign.
  - destruct (code_is error "EADDRINUSE").
    + rewrite run_call_bind, run_retA, perform_unit by not_assign.
      by rewrite extend_extend.
    + rewrite run_call_bind, run_retA, perform_unit by not_assign.
      by rewrite extend_extend.
  - rewrite run_call_bind, perform_unit by not_assign.
    rewrite run_call_bind, run_retA, perform_unit by not_assign.
    by rewrite !extend_extend.
Qed.

Lemma bridge_attempt_returns port w :
  let reply := answer env (NewWebSocketServer port) w in
  returns env (bridge_attempt port) w
          (inr (if caught_in_use reply then inl (port + 1) else inr tt))
          (extend w (bind_obs port reply)).
Proof. intros reply. eexists _, 0%nat. apply (bridge_attempt_run 0). Qed.

Lemma bind_ports_app tr tr' : bind_ports (tr ++ tr') = bind_ports tr ++ bind_ports tr'.
Proof. apply flat_map_app. Qed.

Lemma bind_ports_bind_obs port reply : bind_ports (bind_obs port reply) = [port].
Proof.
  destruct reply as [error|wss]; [|done].
  unfold bind_obs. by destruct (code_is error "EADDRINUSE").
Qed.

End Bridge.

(** ** The orchestration *)

Section Orchestration.
Import Server.
Context (env : Environment).

Lemma returns_call_bind_inv {T R} (e : sysE T) (k : T -> Async R) w r w' :
  ~ assigns (Obs e (answer env e w)) ->
  returns env (bindA (call e) k) w r w' ->
  returns env (k (answer env e w)) (extend w [Obs e (answer env e w)]) r w'.
Proof.
  intros Hna [(err & _ & H)|(v & w1 & H & Hk)]%returns_bindA_inv.
  - by apply returns_call_inv in H as [? _].
  - apply returns_call_inv in H as [[= ->] ->]. by rewrite perform_snd in Hk.
Qed.

Lemma returns_await_bind_inv {T R} (e : sysE (JsError + T)) (k : T -> Async R) w v w' :
  (forall a, ~ assigns (Obs e a)) ->
  returns env (bindA (await e) k) w (inr v) w' ->
  exists a, answer env e w = inr a
            /\ returns env (k a) (extend w [Obs e (inr a)]) (inr v) w'.
Proof.
  intros Hna [(err & ? & _)|(a & w1 & H & Hk)]%returns_bindA_inv; [done|].
  apply returns_await_inv in H as [Ha ->]. rewrite perform_snd in Hk by apply Hna.
  rewrite <- Ha in Hk. eauto.
Qed.

Lemma singleton_sublist {A} (x : A) (l : list A) : x ∈ l -> [x] `sublist_of` l.
Proof.
  intros (l1 & l2 & ->)%list_elem_of_split.
  apply sublist_inserts_l, sublist_skip, sublist_nil_l.
Qed.

Lemma pair_sublist {A} (x y : A) (l1 l2 : list A) :
  x ∈ l1 -> y ∈ l2 -> [x; y] `sublist_of` l1 ++ l2.
Proof.
  intros Hx Hy. change [x; y] with ([x] ++ [y]).
  apply sublist_app; by apply singleton_sublist.
Qed.

(** A successful run of the deployer ends with the contract deployed
    through the wallet it returns. *)
Lemma deployContract_success w res w' :
  returns env deployContract w (inr res) w' ->
  exists tr, w' = extend w tr
    /\ Obs (MainContractDeploy (wallet res)) (inr (contract res)) ∈ tr
    /\ Forall quiet tr /\ Forall (fun o => ~ assigns o) tr.
Proof.
  intros H.
  destruct (emits_returns _ _ _ _ _ _ emits_deployContract H) as (tr & -> & Hq & Hna).
  exists tr. split; [done|]. split; [|done].
  unfold deployContract, setupSandbox, console_log in H.
  apply returns_unit_call_bind_inv in H; [|not_assign].
  apply returns_bindA_inv in H as [(? & ? & _)|(pxe & w1 & Hs & H)]; [done|].
  apply returns_call_bind_inv in Hs; [|not_assign].
  apply returns_await_bind_inv in Hs as (pxe' & _ & Hs); [|intros; not_assign].
  apply returns_await_bind_inv in Hs as ([] & _ & Hs); [|intros; not_assign].
  apply returns_retA_inv in Hs as [[= ->] ->].
  apply returns_await_bind_inv in H as (wallets & _ & H); [|intros; not_assign].
  apply returns_call_bind_inv in H; [|not_assign].
  apply returns_call_bind_inv in H; [|not_assign].
  apply returns_call_bind_inv in H; [|not_assign].
  apply returns_await_bind_inv in H as (account & _ & H); [|intros; not_assign].
  apply returns_await_bind_inv in H as (tx & _ & H); [|intros; not_assign].
  apply returns_await_bind_inv in H as (wl & _ & H); [|intros; not_assign].
  apply returns_await_bind_inv in H as (mainContract & _ & H); [|intros; not_assign].
  apply returns_unit_call_bind_inv in H; [|not_assign].
  apply returns_retA_inv in H as [[= ->] Hw].
  rewrite !extend_extend in Hw.
  apply (f_equal trace) in Hw. cbn [trace extend] in Hw.
  apply app_inv_head in Hw. subst tr. cbn [contract wallet].
  rewrite !elem_of_app, !list_elem_of_singleton. tauto.
Qed.

(** A finished run of the prober saw an ["OK"] response. *)
Lemma prober_success w r w' :
  returns env ensurePXEReady w r w' ->
  r = inr tt /\
  exists tr response, w' = extend w tr
    /\ statusText response = "OK"
    /\ Obs (Fetch status_url) (inr response) ∈ tr
    /\ Forall quiet tr /\ Forall (fun o => ~ assigns o) tr.
Proof.
  intros H.
  destruct (emits_returns _ _ _ _ _ _ emits_ensurePXEReady H) as (tr & Hw & Hq & Hna).
  apply prober_behaviour in H as (-> & k & Hok & _ & Hw').
  split; [done|].
  set (c := calls KFetch (trace w)) in *.
  destruct (env _ (Fetch status_url) (c + k)%nat) as [err|response] eqn:Hreply; [done|].
  exists tr, response. split; [done|]. split; [by apply String.eqb_eq|]. split; [|done].
  rewrite Hw in Hw'. apply (f_equal trace) in Hw'. cbn [trace extend] in Hw'.
  apply app_inv_head in Hw'. subst tr. unfold prober_trace. apply list_elem_of_further.
  clearbody c. clear -Hreply. revert c Hreply. induction k as [|k IH]; intros c Hreply;
    cbn [probes_trace]; apply elem_of_app.
  - left. rewrite Nat.add_0_r in Hreply. rewrite Hreply. apply list_elem_of_here.
  - right. apply IH. by rewrite Nat.add_succ_comm.
Qed.

(** What a sequence of attempts that ends with a success leaves behind. *)
Lemma retry_scenario_trace errors : forall w res w',
  retry_scenario env w errors res w' ->
  exists tr, w' = extend w tr /\ deployed_in res tr
    /\ Forall quiet tr /\ Forall (fun o => ~ assigns o) tr.
Proof.
  induction errors as [|error errors IH]; intros w res w' (w1 & w2 & Hp & Hs).
  - destruct Hs as [Hd ->].
    apply prober_success in Hp as (_ & tr1 & response & -> & Hok & Hin1 & Hq1 & Hna1).
    apply deployContract_success in Hd as (tr2 & -> & Hin2 & Hq2 & Hna2).
    exists (tr1 ++ deploying ++ tr2 ++ deployed_at res).
    rewrite !extend_extend, <- ?app_assoc. split; [done|]. split.
    + exists response. split; [done|].
      apply pair_sublist; [done|]. rewrite !elem_of_app. auto.
    + split; repeat apply Forall_app_2; try done; repeat constructor; not_assign.
  - destruct Hs as [Hd Hs].
    apply prober_success in Hp as (_ & tr1 & _ & -> & _ & _ & Hq1 & Hna1).
    destruct (emits_returns _ _ _ _ _ _ emits_deployContract Hd) as (tr2 & -> & Hq2 & Hna2).
    apply IH in Hs as (tr3 & -> & (response & Hok & Hsub) & Hq3 & Hna3).
    exists (tr1 ++ deploying ++ tr2 ++ failed_and_paused error ++ tr3).
    rewrite !extend_extend, <- ?app_assoc. split; [done|]. split.
    + exists response. split; [done|]. by do 4 apply sublist_inserts_l.
    + split; repeat apply Forall_app_2; try done; repeat constructor; not_assign.
Qed.

End Orchestration.

(** ** Lists *)

(** Where a list splits at an element its first part cannot contain. *)
Lemma split_after {A} (P : A -> Prop) (l1 l2 pre post : list A) (x : A) :
  Forall P l1 -> ~ P x -> l1 ++ l2 = pre ++ x :: post ->
  exists pre', pre = l1 ++ pre' /\ l2 = pre' ++ x :: post.
Proof.
  revert pre. induction l1 as [|y l1 IH]; intros pre Hall Hx Heq.
  - by exists pre.
  - apply Forall_cons in Hall as [Hy Hall]. destruct pre as [|z pre].
    + injection Heq as -> _. done.
    + injection Heq as -> Heq. destruct (IH pre Hall Hx Heq) as (pre' & -> & ->).
      by exists pre'.
Qed.

(** ** The prober completes before the deployer starts *)

Section Guarded.
Import Server.
Context (env : Environment).

Local Abbreviation no_start := (fun o => is_deployer_start o = false).

Lemma extend_inj w tr tr' : extend w tr = extend w tr' -> tr = tr'.
Proof.
  intros H. apply (f_equal trace) in H. cbn [trace extend] in H.
  by apply app_inv_head in H.
Qed.

Lemma guarded_app tr1 tr2 : guarded tr1 -> guarded tr2 -> guarded (tr1 ++ tr2).
Proof.
  intros H1 H2. induction H1 as [tr1 Hq|tr1 response o tr1' Hq Hok Ho _ IH].
  - destruct H2 as [tr2 Hq2|tr2 response o tr2' Hq2 Hok Ho H2].
    + apply guarded_quiet. by apply Forall_app.
    + rewrite app_assoc. apply guarded_start; try done. by apply Forall_app.
  - rewrite <- !app_assoc. by apply (guarded_start tr1 response o (tr1' ++ tr2)).
Qed.

(** What [guarded] says, one start of the deployer at a time. *)
Lemma guarded_spec tr :
  guarded tr ->
  forall pre o post,
    tr = pre ++ o :: post -> is_deployer_start o = true ->
    exists pre' response,
      statusText response = "OK" /\ pre = pre' ++ prober_done response ++ deploying.
Proof.
  induction 1 as [tr Hq|tr response o' tr' Hq Hok Ho' _ IH]; intros pre o post Heq Ho.
  - rewrite Heq in Hq. apply Forall_app in Hq as [_ [Hq _]%Forall_cons]. congruence.
  - rewrite 2!app_assoc in Heq.
    apply (split_after no_start) in Heq as (pre'' & -> & Heq); [| |congruence].
    2:{ repeat apply Forall_app_2; try done; by repeat constructor. }
    destruct pre'' as [|x pre''].
    + exists tr, response. split; [done|]. by rewrite app_nil_r, <- app_assoc.
    + injection Heq as <- Heq.
      destruct (IH _ _ _ Heq Ho) as (pre' & response' & Hok' & ->).
      exists ((tr ++ prober_done response) ++ deploying ++ o' :: pre'), response'.
      split; [done|]. by rewrite <- !app_assoc.
Qed.

Lemma emits_ensurePXEReady_no_start : emits no_start ensurePXEReady.
Proof.
  unfold ensurePXEReady, console_log, sleep.
  repeat (emits_step; intros).
  - destruct (String.eqb _ _); repeat (emits_step; intros).
  - match goal with b : bool |- _ => destruct b end; repeat (emits_step; intros).
Qed.

Lemma emits_startWebSocketServer_no_start port : emits no_start (startWebSocketServer port).
Proof.
  unfold startWebSocketServer, console_log, console_error.
  emits_step; intros. emits_step.
  - repeat (emits_step; intros).
  - intros. destruct (code_is _ _); repeat (emits_step; intros).
Qed.

Lemma probes_trace_last c k :
  exists tr, probes_trace env c k = tr ++ probe_obs (env _ (Fetch status_url) (c + k)%nat).
Proof.
  revert c. induction k as [|k IH]; intros c; cbn [probes_trace].
  - exists []. by rewrite app_nil_r, Nat.add_0_r.
  - destruct (IH (S c)) as [tr ->]. eexists (_ ++ tr).
    by rewrite <- app_assoc, Nat.add_succ_comm.
Qed.

(** A finished run of the prober ends with the ["OK"] response and the two
    lines logged after it. *)
Lemma prober_finished w r w' :
  returns env ensurePXEReady w r w' ->
  r = inr tt /\
  exists tr response,
    w' = extend w (tr ++ prober_done response)
    /\ statusText response = "OK" /\ Forall no_start tr.
Proof.
  intros H.
  destruct (emits_returns _ _ _ _ _ _ emits_ensurePXEReady_no_start H) as (tr & Hw & Hq & _).
  apply prober_behaviour in H as (-> & k & Hok & _ & Hw').
  split; [done|].
  rewrite Hw in Hw'. apply extend_inj in Hw'. subst tr w'.
  set (c := calls KFetch (trace w)) in *.
  destruct (probes_trace_last c k) as [tr Htr].
  destruct (env _ (Fetch status_url) (c + k)%nat) as [err|response] eqn:Hreply; [done|].
  cbn [ready] in Hok. unfold probe_obs in Htr. rewrite Hok in Htr.
  apply String.eqb_eq in Hok.
  exists (Obs (ConsoleLog [Str "⏳ Waiting for PXE to be ready..."]) tt :: tr), response.
  unfold prober_trace in *. rewrite Htr in *. split; [done|]. split; [done|].
  apply Forall_cons in Hq as [Hq1 Hq]. apply Forall_app in Hq as [Hq _]. by constructor.
Qed.

(** A partial run of the deployer starts with its first line, and does not
    start again. *)
Lemma deployContract_partial n w :
  exists tr,
    world_of (run env n deployContract w) = extend w tr
    /\ (Forall no_start tr
        \/ exists o tr', tr = o :: tr' /\ is_deployer_start o = true /\ Forall no_start tr').
Proof.
  unfold deployContract, console_log.
  destruct n as [|n].
  { rewrite run_bindA, run_call. exists []. rewrite extend_nil. split; [done | by left]. }
  rewrite run_call_bind, perform_unit by not_assign.
  match goal with
  | |- context [run env n ?t ?w0] =>
      assert (He : emits no_start t) by (unfold setupSandbox; repeat (emits_step; intros));
      destruct (He env n w0) as (tr & -> & Hq & _)
  end.
  eexists (_ :: tr). rewrite extend_extend. split; [done|]. right. by eexists _, tr.
Qed.

(** A partial run of one attempt holds at most one start of the deployer,
    right after the prober has completed. *)
Lemma deploy_attempt_partial n w :
  exists tr, world_of (run env n (deploy_attempt tt) w) = extend w tr /\ guarded tr.
Proof.
  unfold deploy_attempt. rewrite run_bindA.
  destruct (emits_ensurePXEReady_no_start env n w) as (trp & Hwp & Hqp & _).
  destruct (run env n ensurePXEReady w) as [[e|[]] w1 rem|w1] eqn:Hp;
    cbn [world_of] in Hwp; subst w1.
  { exists trp. split; [done | by apply guarded_quiet]. }
  2:{ exists trp. split; [done | by apply guarded_quiet]. }
  assert (Hret : returns env ensurePXEReady w (inr tt) (extend w trp)) by (by exists n, rem).
  apply prober_finished in Hret as (_ & tr0 & response & Htr & Hok & Hq0).
  apply extend_inj in Htr. subst trp. clear Hp.
  unfold console_log, console_error, sleep. rewrite run_try_catch.
  destruct rem as [|rem].
  { rewrite run_bindA, run_call. eexists. split; [done | by apply guarded_quiet]. }
  clear Hqp.
  rewrite run_call_bind, perform_unit by not_assign. fold deploying.
  rewrite run_bindA, extend_extend.
  destruct (deployContract_partial rem (extend w ((tr0 ++ prober_done response) ++ deploying)))
    as (trd & Hwd & Hd).
  assert (Hg : forall tr', Forall no_start tr' ->
            guarded (((tr0 ++ prober_done response) ++ deploying) ++ trd ++ tr')).
  { intros tr' Hq'. destruct Hd as [Hd|(o & trd' & -> & Ho & Hd)].
    - apply guarded_quiet. repeat apply Forall_app_2; try done; by repeat constructor.
    - rewrite <- !app_assoc.
      apply (guarded_start tr0 response o (trd' ++ tr')); try done.
      apply guarded_quiet. by apply Forall_app. }
  destruct (run env rem deployContract _) as [[e|d] w3 rem3|w3];
    cbn [world_of] in Hwd; subst w3.
  - match goal with
    | |- context [run env rem3 ?t ?w0] =>
        assert (He : emits no_start t) by (repeat (emits_step; intros));
        destruct (He env rem3 w0) as (trh & -> & Hqh & _)
    end.
    eexists. rewrite !extend_extend. split; [reflexivity|]. by apply Hg.
  - match goal with
    | |- context [run env rem3 ?t ?w0] =>
        assert (He : emits no_start t) by (repeat (emits_step; intros));
        destruct (He env rem3 w0) as (trk & Hwk & Hqk & _)
    end.
    destruct (run env rem3 _ _) as [[e|v] w4 rem4|w4]; cbn [world_of] in Hwk; subst w4.
    + match goal with
      | |- context [run env rem4 ?t ?w0] =>
          assert (He' : emits no_start t) by (repeat (emits_step; intros));
          destruct (He' env rem4 w0) as (trh & -> & Hqh & _)
      end.
      eexists. rewrite !extend_extend. split; [reflexivity|].
      apply Hg. by apply Forall_app.
    + eexists. cbn [world_of]. rewrite !extend_extend. split; [reflexivity|]. by apply Hg.
    + eexists. cbn [world_of]. rewrite !extend_extend. split; [reflexivity|]. by apply Hg.
  - eexists. cbn [world_of]. rewrite extend_extend. split; [reflexivity|].
    rewrite <- (app_nil_r trd). by apply Hg.
Qed.

(** Partial runs of a tail-recursive function, from partial runs of its
    body. *)
Lemma tail_rec_partial {I R} (G : list obs -> Prop) (body : I -> Async (I + R)) :
  (forall tr1 tr2, G tr1 -> G tr2 -> G (tr1 ++ tr2)) ->
  (forall i n w, exists tr, world_of (run env n (body i) w) = extend w tr /\ G tr) ->
  forall i n w, exists tr, world_of (run env n (tail_rec body i) w) = extend w tr /\ G tr.
Proof.
  intros Happ Hbody i n. revert i. induction (lt_wf n) as [n _ IH]. intros i w.
  rewrite run_tail_rec.
  destruct (Hbody i n w) as (tr1 & Hw1 & HG1).
  destruct (run env n (body i) w) as [[e|[i'|v]] w1 rem|w1] eqn:Hb;
    cbn [world_of] in Hw1; subst w1; [by exists tr1| |by exists tr1..].
  destruct rem as [|rem]; [by exists tr1|].
  apply run_rem_le in Hb.
  destruct (IH rem ltac:(lia) i' (extend w tr1)) as (tr2 & Hw2 & HG2).
  exists (tr1 ++ tr2). rewrite Hw2, extend_extend. split; [done | by apply Happ].
Qed.

Lemma retry_partial n w :
  exists tr, world_of (run env n deployContractWithRetry w) = extend w tr /\ guarded tr.
Proof.
  rewrite deployContractWithRetry_unfold.
  apply (tail_rec_partial guarded); [apply guarded_app|].
  intros []. apply deploy_attempt_partial.
Qed.

End Guarded.

(** ** Every reachable state of the orchestration *)

Section Reachable.
Import Server.
Context (env : Environment).

Lemma bind_ports_cons o tr : bind_ports (o :: tr) = bind_ports [o] ++ bind_ports tr.
Proof. apply (bind_ports_app [o] tr). Qed.

Lemma quiet_no_ports tr : Forall quiet tr -> bind_ports tr = [].
Proof.
  induction 1 as [|[T e a] tr Hq _ IH]; [done|].
  rewrite bind_ports_cons, IH. by destruct e.
Qed.

Lemma quiet_not_bridge tr : Forall quiet tr -> Forall (fun o => bridge_bind o = false) tr.
Proof. intros H. eapply Forall_impl; [exact H|]. intros [T e a] Hq. by destruct e. Qed.

Lemma not_assigns_calls tr :
  Forall (fun o => ~ assigns o) tr ->
  calls KAssignContractInstance tr = 0%nat /\ calls KAssignWalletInstance tr = 0%nat.
Proof.
  induction 1 as [|o tr Hna _ [IH1 IH2]]; [done|].
  unfold calls in *. rewrite !filter_cons.
  destruct (decide (obs_kind o = KAssignContractInstance)) as [Hk|_].
  { exfalso. apply Hna. by left. }
  destruct (decide (obs_kind o = KAssignWalletInstance)) as [Hk|_].
  { exfalso. apply Hna. by right. }
  done.
Qed.

Lemma perform_assign_contract c w :
  snd (perform env (AssignContractInstance c) w) =
  {| trace := trace w ++ [Obs (AssignContractInstance c) tt];
     contractInstance := Some c;
     walletInstance := walletInstance w |}.
Proof. unfold perform; cbn [snd]. by destruct (env _ _ _). Qed.

Lemma perform_assign_wallet wl w :
  snd (perform env (AssignWalletInstance wl) w) =
  {| trace := trace w ++ [Obs (AssignWalletInstance wl) tt];
     contractInstance := contractInstance w;
     walletInstance := Some wl |}.
Proof. unfold perform; cbn [snd]. by destruct (env _ _ _). Qed.

(** A partial run of one bind attempt tried [port] if it took a step. *)
Lemma bridge_attempt_partial n port w :
  exists tr,
    world_of (run env n (bridge_attempt port) w) = extend w tr
    /\ Forall (fun o => ~ assigns o) tr
    /\ bind_ports tr = match n with O => [] | S _ => [port] end.
Proof.
  unfold bridge_attempt, console_log, console_error. rewrite run_try_catch.
  destruct n as [|n].
  { rewrite run_bindA, run_await. exists []. by rewrite extend_nil. }
  rewrite run_await_bind, perform_snd by not_assign.
  destruct (answer env (NewWebSocketServer port) w) as [error|wss].
  - match goal with
    | |- context [run env n ?t ?w0] =>
        assert (He : emits quiet t)
          by (destruct (code_is _ _); repeat (emits_step; intros));
        destruct (He env n w0) as (tr & Hw & Hq & Hna)
    end.
    exists (Obs (NewWebSocketServer port) (inl error) :: tr).
    rewrite Hw, extend_extend. split; [done|]. split.
    + constructor; [not_assign | done].
    + by rewrite bind_ports_cons, (quiet_no_ports tr).
  - match goal with
    | |- context [run env n ?t ?w0] =>
        assert (He : emits quiet t) by (repeat (emits_step; intros));
        destruct (He env n w0) as (tr & Hw & Hq & Hna)
    end.
    destruct (run env n _ _) as [[e|v] w1 rem|w1]; cbn [world_of] in Hw; subst w1.
    + match goal with
      | |- context [run env rem ?t ?w0] =>
          assert (He' : emits quiet t)
            by (destruct (code_is _ _); repeat (emits_step; intros));
          destruct (He' env rem w0) as (tr' & Hw' & Hq' & Hna')
      end.
      exists (Obs (NewWebSocketServer port) (inr wss) :: tr ++ tr').
      rewrite Hw', !extend_extend. split; [done|]. split.
      * constructor; [not_assign | by apply Forall_app].
      * rewrite bind_ports_cons, (quiet_no_ports (tr ++ tr')); [done|].
        by apply Forall_app.
    + exists (Obs (NewWebSocketServer port) (inr wss) :: tr).
      cbn [world_of]. rewrite extend_extend. split; [done|]. split.
      * constructor; [not_assign | done].
      * by rewrite bind_ports_cons, (quiet_no_ports tr).
    + exists (Obs (NewWebSocketServer port) (inr wss) :: tr).
      cbn [world_of]. rewrite extend_extend. split; [done|]. split.
      * constructor; [not_assign | done].
      * by rewrite bind_ports_cons, (quiet_no_ports tr).
Qed.

(** A partial run of [startWebSocketServer port] tried [port], [port + 1],
    ..., in this order, and assigned nothing. *)
Lemma bridge_partial n : forall port w,
  exists tr,
    world_of (run env n (startWebSocketServer port) w) = extend w tr
    /\ Forall (fun o => ~ assigns o) tr
    /\ (bind_ports tr = [] \/ exists k, bind_ports tr = ports_from port k).
Proof.
  induction (lt_wf n) as [n _ IH]. intros port w.
  rewrite startWebSocketServer_unfold, run_tail_rec.
  destruct (bridge_attempt_partial n port w) as (tr1 & Hw1 & Hna1 & Hports1).
  assert (Hone : bind_ports tr1 = [] \/ exists k, bind_ports tr1 = ports_from port k).
  { rewrite Hports1. destruct n; [by left | right; by exists 0%nat]. }
  destruct (run env n (bridge_attempt port) w) as [[e|[port'|[]]] w1 rem|w1] eqn:Hrun;
    cbn [world_of] in Hw1; subst w1; [by exists tr1| |by exists tr1..].
  destruct rem as [|rem]; [by exists tr1|].
  assert (Hret : returns env (bridge_attempt port) w (inr (inl port')) (extend w tr1))
    by (by exists n, (S rem)).
  destruct (returns_det env _ _ _ _ _ _ Hret (bridge_attempt_returns env port w))
    as [Hr _].
  assert (port' = port + 1) as -> by (destruct (caught_in_use _); congruence).
  assert (n <> 0%nat) as Hn.
  { intros ->. unfold bridge_attempt in Hrun.
    rewrite run_try_catch, run_bindA, run_await in Hrun. done. }
  apply run_rem_le in Hrun.
  destruct (IH rem ltac:(lia) (port + 1) (extend w tr1)) as (tr2 & Hw2 & Hna2 & Hports2).
  rewrite <- startWebSocketServer_unfold, Hw2, extend_extend.
  exists (tr1 ++ tr2). split; [done|]. split; [by apply Forall_app|].
  right. rewrite bind_ports_app, Hports1. destruct n as [|n]; [done|].
  destruct Hports2 as [->|[k ->]]; [by exists 0%nat | by exists (S k)].
Qed.

(** Every state the process reaches is of one of three forms: no
    deployment has succeeded yet and nothing is stored; a deployment has
    succeeded and [contractInstance] alone is assigned; both variables are
    assigned and the bridge is being bound or is bound. *)
Lemma main_reaches n :
  let o := run env n main initial_world in
  (exists tr,
     world_of o = extend initial_world tr /\ before_deployment tr
     /\ forall w' rem, o <> Done (inr tt) w' rem)
  \/ (exists tr res,
        before_deployment tr /\ deployed_in res tr /\
        ((o = OutOfFuel
                {| trace := tr ++ [Obs (AssignContractInstance (contract res)) tt];
                   contractInstance := Some (contract res);
                   walletInstance := None |})
         \/ (exists tr_b,
               Forall (fun o => ~ assigns o) tr_b
               /\ Forall (fun o => is_deployer_start o = false) tr_b
               /\ (bind_ports tr_b = [] \/ exists k, bind_ports tr_b = ports_from 3002 k)
               /\ world_of o =
                  {| trace := tr ++ stored res ++ tr_b;
                     contractInstance := Some (contract res);
                     walletInstance := Some (wallet res) |}))).
Proof.
  intros o. subst o. unfold main.
  destruct n as [|n].
  { left. exists []. rewrite run_bindA, run_await. cbn [world_of].
    rewrite extend_nil. split; [done|]. split; [by left | done]. }
  rewrite run_await_bind, perform_snd by not_assign.
  set (w1 := extend initial_world _).
  destruct (answer env (NewWebSocketServer 3001) initial_world) as [error|wss] eqn:Hbind.
  { left. eexists. split; [reflexivity|]. split; [|done].
    right. eexists _, []. split; [reflexivity|].
    repeat split; try done. by apply guarded_quiet. }
  rewrite run_bindA.
  destruct (emits_deployContractWithRetry env n w1) as (tr1 & Hw1 & Hq1 & Hna1).
  destruct (retry_partial env n w1) as (tr1' & Hw1' & Hg1).
  rewrite Hw1 in Hw1'. apply extend_inj in Hw1'. subst tr1'.
  assert (Hbefore : before_deployment (Obs (NewWebSocketServer 3001) (inr wss) :: tr1)).
  { right. by eexists _, tr1. }
  destruct (run env n deployContractWithRetry w1) as [[e|res] w2 rem|w2] eqn:Hrun;
    cbn [world_of] in Hw1; subst w2.
  { left. eexists. subst w1. rewrite extend_extend. split; [reflexivity|]. done. }
  2:{ left. eexists. subst w1. rewrite extend_extend. split; [reflexivity|]. done. }
  assert (Hret : returns env deployContractWithRetry w1 (inr res) (extend w1 tr1))
    by (by exists n, rem).
  apply retry_behaviour in Hret as (errors & res' & [= <-] & Hs).
  apply retry_scenario_trace in Hs as (tr1' & Hw & Hdep & _).
  apply extend_inj in Hw. subst tr1'.
  assert (Hdep' : deployed_in res (Obs (NewWebSocketServer 3001) (inr wss) :: tr1)).
  { destruct Hdep as (response & Hok & Hsub). exists response. split; [done|].
    by apply sublist_cons. }
  rewrite run_bindA, run_call.
  destruct rem as [|rem].
  { left. eexists. subst w1. rewrite extend_extend. split; [reflexivity|]. done. }
  right. exists (Obs (NewWebSocketServer 3001) (inr wss) :: tr1), res.
  split; [done|]. split; [done|].
  rewrite perform_assign_contract, run_bindA, run_call.
  destruct rem as [|rem].
  { left. subst w1. unfold extend. cbn [trace contractInstance walletInstance initial_world].
    by rewrite <- app_assoc. }
  right. rewrite perform_assign_wallet.
  match goal with |- context [run env rem _ ?w] => set (w4 := w) end.
  destruct (bridge_partial rem 3002 w4) as (tr_b & Hwb & Hnab & Hports).
  destruct (emits_startWebSocketServer_no_start 3002 env rem w4) as (tr_b' & Hwb' & Hns & _).
  rewrite Hwb in Hwb'. apply extend_inj in Hwb'. subst tr_b'.
  exists tr_b. split; [done|]. split; [done|]. split; [done|].
  rewrite Hwb. subst w4 w1. unfold extend, stored.
  cbn [trace contractInstance walletInstance initial_world].
  by rewrite <- !app_assoc.
Qed.

End Reachable.

(** ** The binds that fail *)

Section FailedBinds.
Import Server.
Context (env : Environment).

Lemma failed_binds_app ports tr tr' :
  failed_binds ports (tr ++ tr') = failed_binds ports tr ++ failed_binds ports tr'.
Proof. apply flat_map_app. Qed.

Lemma quiet_no_failed_binds ports tr : Forall quiet tr -> failed_binds ports tr = [].
Proof.
  induction 1 as [|o tr Ho _ IH]; [done|].
  change (o :: tr) with ([o] ++ tr). rewrite failed_binds_app, IH.
  destruct o as [T e a]. destruct e; first [done | exfalso; by apply Ho].
Qed.

(** C3: [startWebSocketServer] misses the binds that fail.  Its [catch]
    block does go on with [port + 1] when the constructor itself throws an
    error coded ["EADDRINUSE"], and logs any other error that the constructor
    throws; but [ws] does not tell a failed bind that way.  Whenever the
    constructor returns its server, as it does whether or not the port can be
    bound, the function registers the handler, logs that the server is
    running on [port] and returns, after this one attempt: no other port is
    tried and nothing is logged with [console.error].  When [port] cannot be
    bound, for "address in use" or anything else, the failure then comes as
    an ['error'] event on a server without a listener for it.  At no moment
    of a run is a port other than [port] tried, unless the constructor threw
    ["EADDRINUSE"]. *)
Theorem startWebSocketServer_misses_failed_binds (w : World) (port : Z) :
  (forall wss,
     answer env (NewWebSocketServer port) w = inr wss ->
     returns env (startWebSocketServer port) w (inr tt) (extend w (bind_obs port (inr wss)))
     /\ (forall r w',
           returns env (startWebSocketServer port) w r w' ->
           r = inr tt /\ w' = extend w (bind_obs port (inr wss)))
     /\ bind_ports (bind_obs port (inr wss)) = [port]
     /\ calls KConsoleError (bind_obs port (inr wss)) = 0%nat
     /\ (forall ports error,
           ports port = Some error ->
           failed_binds ports (bind_obs port (inr wss)) = [(port, error)]))
  /\ (forall n, exists tr,
        world_of (run env n (startWebSocketServer port) w) = extend w tr
        /\ (caught_in_use (answer env (NewWebSocketServer port) w) = true
            \/ bind_ports tr = [] \/ bind_ports tr = [port]))
  /\ (forall error,
        answer env (NewWebSocketServer port) w = inl error ->
        code_is error "EADDRINUSE" = true ->
        returns env (bridge_attempt port) w (inr (inl (port + 1)))
                (extend w (bind_obs port (inl error)))).
Proof.
  pose proof (bridge_attempt_returns env port w) as Hbody. cbn zeta in Hbody.
  split; [|split].
  - intros wss Hwss. rewrite Hwss in Hbody. cbn [caught_in_use] in Hbody.
    assert (Hret : returns env (startWebSocketServer port) w (inr tt)
                           (extend w (bind_obs port (inr wss))))
      by (rewrite startWebSocketServer_unfold; by apply returns_tail_rec_done).
    split; [exact Hret|]. split; [|split; [done|split; [done|]]].
    + intros r w' Hr. exact (returns_det env _ _ _ _ _ _ Hr Hret).
    + intros ports error Hport. cbn. by rewrite Hport.
  - intros n. destruct (caught_in_use (answer env (NewWebSocketServer port) w)) eqn:Hcaught.
    + destruct (bridge_partial env n port w) as (tr & Hw & _). exists tr. split; [done | by left].
    + rewrite startWebSocketServer_unfold, run_tail_rec.
      destruct (bridge_attempt_partial env n port w) as (tr & Hw & _ & Hports).
      destruct Hbody as (n0 & rem0 & Hbody).
      exists tr. split.
      * destruct (run_agree env n0 n _ _ _ _ _ Hbody) as [[w' H]|[rem H]];
          rewrite H in Hw |- *; exact Hw.
      * right. rewrite Hports. destruct n; [by left | by right].
  - intros error Herror Hcode. rewrite Herror in Hbody. cbn [caught_in_use] in Hbody.
    by rewrite Hcode in Hbody.
Qed.

End FailedBinds.

(** ** The order of the orchestration, and the stored deployment *)

Section Orchestrator.
Import Server.
Context (env : Environment).

Lemma before_deployment_not_bridge tr :
  before_deployment tr -> Forall (fun o => bridge_bind o = false) tr.
Proof.
  intros [->|(reply & tr' & -> & Hq & _ & _)]; [done|].
  constructor; [done | by apply quiet_not_bridge].
Qed.

Lemma before_deployment_ports tr :
  before_deployment tr -> bind_ports tr = [] \/ bind_ports tr = [3001].
Proof.
  intros [->|(reply & tr' & -> & Hq & _ & _)]; [by left|].
  right. by rewrite bind_ports_cons, (quiet_no_ports tr').
Qed.

Lemma before_deployment_calls tr :
  before_deployment tr ->
  calls KAssignContractInstance tr = 0%nat /\ calls KAssignWalletInstance tr = 0%nat.
Proof.
  intros [->|(reply & tr' & -> & _ & Hna & _)]; [done|].
  apply not_assigns_calls. constructor; [not_assign | done].
Qed.

Lemma before_deployment_guarded tr : before_deployment tr -> guarded tr.
Proof.
  intros [->|(reply & tr' & -> & _ & _ & Hg)]; [by apply guarded_quiet|].
  apply (guarded_app [_] tr'); [|done]. apply guarded_quiet. by repeat constructor.
Qed.

(** The order of the orchestration in every state the process reaches. *)
Lemma main_order n :
  let tr := trace (world_of (run env n main initial_world)) in
  (forall pre o post,
     tr = pre ++ o :: post -> is_deployer_start o = true ->
     exists pre' response,
       statusText response = "OK" /\ pre = pre' ++ prober_done response ++ deploying)
  /\ (forall pre o post,
        tr = pre ++ o :: post -> bridge_bind o = true ->
        exists res response,
          statusText response = "OK" /\
          Obs (Fetch status_url) (inr response)
            :: Obs (MainContractDeploy (wallet res)) (inr (contract res))
            :: stored res `sublist_of` pre)
  /\ (bind_ports tr = [] \/ bind_ports tr = [3001]
      \/ exists k, bind_ports tr = 3001 :: ports_from 3002 k).
Proof.
  intros tr. subst tr.
  destruct (main_reaches env n)
    as [(tr & -> & Hb & _)|(tr & res & Hb & Hdep & [->|(tr_b & Hna & Hns & Hports & ->)])];
    cbn [world_of trace extend initial_world app].
  - split; [|split].
    + by apply guarded_spec, before_deployment_guarded.
    + intros pre o post -> Ho. apply before_deployment_not_bridge in Hb.
      apply Forall_app in Hb as [_ [Hb _]%Forall_cons]. congruence.
    + destruct (before_deployment_ports tr Hb) as [->| ->]; auto.
  - split; [|split].
    + apply guarded_spec, guarded_app; [by apply before_deployment_guarded|].
      apply guarded_quiet. by repeat constructor.
    + intros pre o post Heq Ho. apply before_deployment_not_bridge in Hb.
      assert (Hall : Forall (fun o => bridge_bind o = false)
                (tr ++ [Obs (AssignContractInstance (contract res)) tt]))
        by (apply Forall_app; split; [done | by repeat constructor]).
      rewrite Heq in Hall. apply Forall_app in Hall as [_ [Hall _]%Forall_cons].
      congruence.
    + rewrite bind_ports_app. change (bind_ports [_]) with (@nil Z). rewrite app_nil_r.
      destruct (before_deployment_ports tr Hb) as [->| ->]; auto.
  - split; [|split].
    + apply guarded_spec. repeat apply guarded_app.
      * by apply before_deployment_guarded.
      * apply guarded_quiet. by repeat constructor.
      * by apply guarded_quiet.
    + intros pre o post Heq Ho. apply before_deployment_not_bridge in Hb.
      rewrite app_assoc in Heq.
      apply (split_after (fun o => bridge_bind o = false)) in Heq
        as (pre' & -> & _); [| |congruence].
      2:{ apply Forall_app; split; [done | by repeat constructor]. }
      destruct Hdep as (response & Hok & Hsub). exists res, response. split; [done|].
      apply sublist_inserts_r.
      change (?a :: ?b :: stored res) with ([a; b] ++ stored res).
      by apply sublist_app.
    + rewrite !bind_ports_app. change (bind_ports (stored res)) with (@nil Z).
      cbn [app]. destruct Hb as [->|(reply & tr' & -> & Hq & _ & _)].
      { destruct Hdep as (? & _ & Hsub). by apply sublist_nil_r in Hsub. }
      rewrite bind_ports_cons, (quiet_no_ports tr') by done.
      change (bind_ports [_]) with [3001]. cbn [app].
      destruct Hports as [->|[k ->]]; eauto.
Qed.

(** C6: in every state the orchestration reaches, whatever the environment
    answers: (1) every start of the deployer comes right after a completed
    run of the prober (its ["OK"] response and the two lines it then logs)
    and the line "Deploying contract..."; (2) a bind of the bridge (any
    [new WebSocketServer] on port 3002 or above) comes after, in this
    order, a status probe answered ["OK"], the successful deployment of the
    contract, the assignment of the contract to [contractInstance] and of
    the wallet to [walletInstance]; (3) the ports tried are 3001 (line 8 of
    the source), then 3002, the default port of the bridge, then 3003 and
    so on. *)
Theorem orchestration_order (n : nat) :
  let tr := trace (world_of (run env n main initial_world)) in
  (forall pre o post,
     tr = pre ++ o :: post -> is_deployer_start o = true ->
     exists pre' response,
       statusText response = "OK" /\ pre = pre' ++ prober_done response ++ deploying)
  /\ (forall pre o post,
        tr = pre ++ o :: post -> bridge_bind o = true ->
        exists res response,
          statusText response = "OK" /\
          Obs (Fetch status_url) (inr response)
            :: Obs (MainContractDeploy (wallet res)) (inr (contract res))
            :: stored res `sublist_of` pre)
  /\ (bind_ports tr = [] \/ bind_ports tr = [3001]
      \/ exists k, bind_ports tr = 3001 :: ports_from 3002 k).
Proof. exact (main_order n). Qed.

Lemma deployed_in_app res tr tr' : deployed_in res tr -> deployed_in res (tr ++ tr').
Proof.
  intros (response & Hok & Hsub). exists response. split; [done|].
  by apply sublist_inserts_r.
Qed.

(** C8: in every state the orchestration reaches, each of the two
    module-level variables has been assigned at most once; either both are
    still undefined, or what is held is the contract (and, one step later,
    the wallet) of the one deployment result the retry wrapper returned;
    when the orchestration has run to its end, each has been assigned
    exactly once; and the handlers the bridge registers assign nothing, so
    that afterwards the variables are not written again. *)
Theorem deployment_stored_once (n : nat) :
  let o := run env n main initial_world in
  let w := world_of o in
  ((calls KAssignContractInstance (trace w) <= 1)%nat
   /\ (calls KAssignWalletInstance (trace w) <= 1)%nat)
  /\ ((contractInstance w = None /\ walletInstance w = None)
      \/ exists res,
           deployed_in res (trace w)
           /\ contractInstance w = Some (contract res)
           /\ (walletInstance w = None \/ walletInstance w = Some (wallet res)))
  /\ (forall w' rem,
        o = Done (inr tt) w' rem ->
        calls KAssignContractInstance (trace w') = 1%nat
        /\ calls KAssignWalletInstance (trace w') = 1%nat
        /\ exists res,
             deployed_in res (trace w')
             /\ contractInstance w' = Some (contract res)
             /\ walletInstance w' = Some (wallet res))
  /\ (forall port ws message,
        emits (fun _ => True) (onConnection port ws)
        /\ emits (fun _ => True) (onMessage ws message)
        /\ emits (fun _ => True) (onClose port)).
Proof.
  intros o w. subst w o.
  split; [|split; [|split]].
  4:{ intros. split; [apply emits_onConnection|].
      split; [apply emits_onMessage | apply emits_onClose]. }
  all: destruct (main_reaches env n)
    as [(tr & Hw & Hb & Hnd)|(tr & res & Hb & Hdep & [Ho|(tr_b & Hna & _ & _ & Hw)])].
  all: try (rewrite Ho; cbn [world_of trace contractInstance walletInstance]).
  all: try (rewrite Hw; cbn [trace extend contractInstance walletInstance initial_world app]).
  all: destruct (before_deployment_calls tr Hb) as [Hc Hwl].
  all: rewrite ?calls_app, ?Hc, ?Hwl.
  all: try destruct (not_assigns_calls tr_b Hna) as [Hc' Hwl'].
  all: rewrite ?Hc', ?Hwl'.
  - split; lia.
  - change (calls KAssignContractInstance [_]) with 1%nat.
    change (calls KAssignWalletInstance [_]) with 0%nat. split; lia.
  - change (calls KAssignContractInstance (stored res)) with 1%nat.
    change (calls KAssignWalletInstance (stored res)) with 1%nat. split; lia.
  - by left.
  - right. exists res. split; [by apply deployed_in_app|]. auto.
  - right. exists res. split; [by apply deployed_in_app|]. auto.
  - intros w' rem Ho. by apply Hnd in Ho.
  - intros w' rem Ho'. done.
  - intros w' rem Ho.
    assert (Hw' : world_of (run env n main initial_world) = w') by (by rewrite Ho).
    rewrite Hw in Hw'. subst w'. cbn [trace contractInstance walletInstance].
    rewrite !calls_app, Hc, Hwl, Hc', Hwl'.
    change (calls KAssignContractInstance (stored res)) with 1%nat.
    change (calls KAssignWalletInstance (stored res)) with 1%nat.
    split; [done|]. split; [done|].
    exists res. split; [by apply deployed_in_app|]. done.
Qed.

End Orchestrator.

(** ** The bridge's answer to a message *)

Section BridgeMessages.
Import Server.
Context (env : Environment).

Lemma onMessage_returns w ws message :
  let text := answer env (RawDataToString message) w in
  returns env (onMessage ws message) w (inr tt)
    (extend w [Obs (RawDataToString message) text;
               Obs (ConsoleLog [Str "📥 Received WebSocket message:"; Str text]) tt;
               Obs (WsSend ws ack_payload) tt]).
Proof.
  intros text. exists 3%nat, 0%nat. unfold onMessage, console_log.
  rewrite run_call_bind, perform_snd by not_assign.
  rewrite run_call_bind, perform_unit by not_assign.
  rewrite run_call_unit by not_assign. by rewrite !extend_extend.
Qed.

Lemma sent_app tr tr' : sent (tr ++ tr') = sent tr ++ sent tr'.
Proof. apply flat_map_app. Qed.

(** C4: whatever the message and whatever its text, the handler logs it,
    sends back on the same socket exactly one text, the acknowledgement
    [{"success":true,"message":"Test response from WebSocket server"}], and
    returns normally; it never ends with an error.  The text sent is the
    serialisation of the acknowledgement object and does not mention the
    message. *)
Theorem onMessage_spec (w : World) (ws : WebSocket) (message : RawData) :
  let text := answer env (RawDataToString message) w in
  returns env (onMessage ws message) w (inr tt)
    (extend w [Obs (RawDataToString message) text;
               Obs (ConsoleLog [Str "📥 Received WebSocket message:"; Str text]) tt;
               Obs (WsSend ws ack_payload) tt])
  /\ (forall r w',
        returns env (onMessage ws message) w r w' ->
        r = inr tt /\ sent (trace w') = sent (trace w) ++ [(ws, ack_payload)])
  /\ JSON.stringify ack_object = ack_payload.
Proof.
  intros text. split; [apply onMessage_returns|]. split; [|reflexivity].
  intros r w' Hr.
  destruct (returns_det env _ _ _ _ _ _ Hr (onMessage_returns w ws message)) as [-> ->].
  split; [done|]. cbn [trace extend]. by rewrite sent_app.
Qed.

End BridgeMessages.

(** ** The status endpoint and [PXE_URL] *)

Section StatusEndpoint.
Import Server.

Lemma fetched_app tr tr' : fetched (tr ++ tr') = fetched tr ++ fetched tr'.
Proof. apply flat_map_app. Qed.

Lemma pxe_clients_app tr tr' : pxe_clients (tr ++ tr') = pxe_clients tr ++ pxe_clients tr'.
Proof. apply flat_map_app. Qed.

Lemma emits_prober_fetches :
  emits (fun o => Forall (fun url => url = "http://localhost:8080/status") (fetched [o]))
        ensurePXEReady.
Proof.
  unfold ensurePXEReady, console_log, sleep.
  repeat (emits_step; intros); try by repeat constructor.
  - destruct (String.eqb _ _); repeat (emits_step; intros); by repeat constructor.
  - match goal with b : bool |- _ => destruct b end;
      repeat (emits_step; intros); by repeat constructor.
Qed.

(** C5: [setupSandbox] makes its client for the value of [PXE_URL], or for
    [http://localhost:8080] when it is not set; but the prober fetches
    [http://localhost:8080/status] whatever the environment holds: with
    [PXE_URL] pointing at another host whose status endpoint answers ["OK"],
    the client is made for that host, the prober still asks localhost, and
    never returns. *)
Theorem status_probe_ignores_PXE_URL :
  (forall env n w,
     pxe_clients (trace (world_of (run env (2 + n) setupSandbox w)))
     = pxe_clients (trace w)
       ++ [default "http://localhost:8080" (answer env (ProcessEnv "PXE_URL") w)])
  /\ (forall env n w, exists tr,
        world_of (run env n ensurePXEReady w) = extend w tr
        /\ Forall (fun url => url = "http://localhost:8080/status") (fetched tr))
  /\ pxe_clients (trace (world_of (run remote_pxe 10 setupSandbox initial_world)))
     = ["http://10.0.0.5:9000"]
  /\ fetched (trace (world_of (run remote_pxe 10 ensurePXEReady initial_world)))
     = ["http://localhost:8080/status"; "http://localhost:8080/status";
        "http://localhost:8080/status"]
  /\ diverges remote_pxe ensurePXEReady initial_world.
Proof.
  split; [|split; [|split; [|split]]].
  - intros env n w. unfold setupSandbox. cbn [Nat.add].
    rewrite run_call_bind, perform_snd by not_assign.
    rewrite run_await_bind, perform_snd by not_assign.
    set (url := default "http://localhost:8080" (answer env (ProcessEnv "PXE_URL") w)).
    destruct (answer env (CreatePXEClient url) _) as [e|pxe]; cbn [world_of].
    + rewrite extend_extend. cbn [trace extend]. by rewrite pxe_clients_app.
    + match goal with
      | |- context [run env n ?t ?w0] =>
          assert (He : emits (fun o => pxe_clients [o] = []) t)
            by (repeat (emits_step; intros));
          destruct (He env n w0) as (tr & -> & Hnone & _)
      end.
      rewrite !extend_extend. cbn [trace extend]. rewrite !pxe_clients_app.
      assert (pxe_clients tr = []) as ->.
      { clear -Hnone. induction Hnone as [|o tr Ho _ IH]; [done|].
        change (pxe_clients (o :: tr)) with (pxe_clients ([o] ++ tr)).
        by rewrite pxe_clients_app, Ho, IH. }
      by rewrite app_nil_r.
  - intros env n w. destruct (emits_prober_fetches env n w) as (tr & Hw & HP & _).
    exists tr. split; [done|]. clear Hw. induction HP as [|o tr Ho _ IH]; [done|].
    change (fetched (o :: tr)) with (fetched ([o] ++ tr)). rewrite fetched_app.
    by apply Forall_app.
  - by vm_compute.
  - by vm_compute.
  - apply (prober_behaviour remote_pxe initial_world). intros i. reflexivity.
Qed.

End StatusEndpoint.

(** ** The scenarios *)

Section Scenarios.
Import Server.

Lemma ensurePXEReady_spec_witness :
  returns two_failed_probes ensurePXEReady initial_world (inr tt)
          (extend initial_world two_failed_probes_trace)
  /\ calls KFetch two_failed_probes_trace = 3%nat
  /\ probes_and_pauses_of two_failed_probes_trace =
     [Obs (Fetch status_url) (inl network_error); Obs (SetTimeout 5000) tt;
      Obs (Fetch status_url) (inl network_error); Obs (SetTimeout 5000) tt;
      Obs (Fetch status_url) (inr {| statusText := "OK" |})].
Proof.
  apply (proj1 (ensurePXEReady_spec two_failed_probes initial_world) 2%nat).
  - intros i Hi. destruct i as [|[|i]]; [reflexivity | reflexivity | lia].
  - reflexivity.
Defined.

Lemma deployContractWithRetry_spec_witness :
  let w' := world_of (run deploy_fails_once 40 deployContractWithRetry initial_world) in
  returns deploy_fails_once deployContractWithRetry initial_world (inr second_attempt) w'
  /\ logged_failures (trace w') = [timeout_error]
  /\ pauses (trace w') = [10000]
  /\ starts (trace w') = [true; false; true; false].
Proof.
  intros w'. split; [|by vm_compute].
  apply (proj1 (deployContractWithRetry_spec deploy_fails_once initial_world)
               [timeout_error]).
  set (w1 := world_of (run deploy_fails_once 10 ensurePXEReady initial_world)).
  set (w2 := world_of (run deploy_fails_once 20 deployContract (extend w1 deploying))).
  set (w3 := world_of (run deploy_fails_once 10 ensurePXEReady
                           (extend w2 (failed_and_paused timeout_error)))).
  set (w4 := world_of (run deploy_fails_once 20 deployContract (extend w3 deploying))).
  exists w1, w2. split; [apply (returns_of_run _ 10); by vm_compute|].
  split; [apply (returns_of_run _ 20); by vm_compute|].
  exists w3, w4. split; [apply (returns_of_run _ 10); by vm_compute|].
  split; [apply (returns_of_run _ 20); by vm_compute|].
  by vm_compute.
Defined.

Lemma onMessage_spec_witness :
  @inr JsError unit tt = inr tt
  /\ sent (trace (world_of (run calm 3 (onMessage {| socket_id := 7 |} hello) initial_world)))
     = sent (trace initial_world) ++ [({| socket_id := 7 |}, ack_payload)].
Proof.
  apply (proj1 (proj2 (onMessage_spec calm initial_world {| socket_id := 7 |} hello))).
  apply (returns_of_run _ 3). by vm_compute.
Defined.

Lemma orchestration_order_witness :
  let tr := trace (world_of (run deploy_fails_once 60 main initial_world)) in
  (exists pre' response,
     statusText response = "OK" /\ take 23 tr = pre' ++ prober_done response ++ deploying)
  /\ (exists res response,
        statusText response = "OK" /\
        Obs (Fetch status_url) (inr response)
          :: Obs (MainContractDeploy (wallet res)) (inr (contract res))
          :: stored res
        `sublist_of` take 39 tr).
Proof.
  intros tr. split.
  - apply (proj1 (orchestration_order deploy_fails_once 60)
                 (take 23 tr) (Obs (ConsoleLog [Str "goes into deployContract"]) tt)
                 (drop 24 tr)).
    + by vm_compute.
    + reflexivity.
  - apply (proj1 (proj2 (orchestration_order deploy_fails_once 60))
                 (take 39 tr) (Obs (NewWebSocketServer 3002) (inr {| server_id := 1 |}))
                 (drop 40 tr)).
    + by vm_compute.
    + reflexivity.
Defined.

Lemma deployment_stored_once_witness :
  let w := world_of (run calm 60 main initial_world) in
  calls KAssignContractInstance (trace w) = 1%nat
  /\ calls KAssignWalletInstance (trace w) = 1%nat
  /\ exists res,
       deployed_in res (trace w)
       /\ contractInstance w = Some (contract res)
       /\ walletInstance w = Some (wallet res).
Proof.
  apply (proj1 (proj2 (proj2 (deployment_stored_once calm 60)))
               (world_of (run calm 60 main initial_world)) 35%nat).
  by vm_compute.
Defined.

End Scenarios.

(** ** The contract under a sequence of calls *)

Section ContractSequences.
Import Contract.

Lemma after_invoke_all_cons c cs s :
  after (invoke_all (c :: cs)) s = after (invoke_all cs) (after (invoke c) s).
Proof.
  unfold after; cbn. unfold bind.
  destruct (invoke c s) as [r s1]; cbn. by destruct (invoke_all cs s1).
Qed.

Lemma after_invoke_all_app cs cs' s :
  after (invoke_all (cs ++ cs')) s = after (invoke_all cs') (after (invoke_all cs) s).
Proof.
  revert s. induction cs as [|c cs IH]; intros s; [done|].
  by rewrite <- app_comm_cons, !after_invoke_all_cons, IH.
Qed.

Lemma result_invoke_all_app cs cs' s :
  result (invoke_all (cs ++ cs')) s =
  result (invoke_all cs) s ++ result (invoke_all cs') (after (invoke_all cs) s).
Proof.
  revert s. induction cs as [|c cs IH]; intros s; [done|].
  rewrite <- app_comm_cons, after_invoke_all_cons.
  specialize (IH (after (invoke c) s)). revert IH.
  unfold result, after; cbn. unfold bind.
  destruct (invoke c s) as [r s1]; cbn.
  destruct (invoke_all (cs ++ cs') s1), (invoke_all cs s1); cbn. by intros ->.
Qed.

Lemma just_field_after_calls cs : forall s,
  cell_just_field (after (invoke_all cs) s) = default (cell_just_field s) (last_just_field cs).
Proof.
  induction cs as [|c cs IH]; intros s; [done|].
  rewrite after_invoke_all_cons, IH. unfold last_just_field.
  destruct c; cbn [omap]; try done.
  cbn. rewrite last_cons. by destruct (last _).
Qed.

Lemma field_in_map_after_calls key cs : forall s,
  result (read_field_in_map key) (after (invoke_all cs) s)
  = default (result (read_field_in_map key) s) (last_field_in_map key cs).
Proof.
  induction cs as [|c cs IH]; intros s; [done|].
  rewrite after_invoke_all_cons, IH. unfold last_field_in_map.
  destruct c as [v| |k v|k]; cbn [omap]; try done.
  change (after (invoke (SetFieldInMap k v)) s) with (after (set_field_in_map k v) s).
  rewrite read_after_write_map. cbn. case_decide; [|done].
  rewrite last_cons. by destruct (last _).
Qed.

(** X1: after any sequence of calls, whatever the state it starts from,
    [get_just_field] returns the value of the last [set_just_field] of the
    sequence and [read_field_in_map key] the value of the last
    [set_field_in_map] on [key]; when the sequence has no such call they
    return what they returned before it.  This is also what a view call at
    the end of the sequence returns to its caller. *)
Theorem last_write_wins (cs : list Call) (s : PublicState) :
  result get_just_field (after (invoke_all cs) s)
  = default (result get_just_field s) (last_just_field cs)
  /\ (forall key,
        result (read_field_in_map key) (after (invoke_all cs) s)
        = default (result (read_field_in_map key) s) (last_field_in_map key cs))
  /\ result (invoke_all (cs ++ [GetJustField])) s
     = result (invoke_all cs) s
       ++ [Some (default (result get_just_field s) (last_just_field cs))]
  /\ (forall key,
        result (invoke_all (cs ++ [ReadFieldInMap key])) s
        = result (invoke_all cs) s
          ++ [Some (default (result (read_field_in_map key) s) (last_field_in_map key cs))]).
Proof.
  split; [apply just_field_after_calls|].
  split; [intros key; apply field_in_map_after_calls|].
  split; [|intros key]; rewrite result_invoke_all_app; f_equal.
  - change (result (invoke_all [GetJustField]) ?s') with [Some (cell_just_field s')].
    by rewrite just_field_after_calls.
  - change (result (invoke_all [ReadFieldInMap key]) ?s')
      with [Some (result (read_field_in_map key) s')].
    by rewrite field_in_map_after_calls.
Qed.

(** X2: [quadruple] changes nothing, ignores its argument [x] and returns
    100 times [just_field] in the field: 100 times the value of the last
    [set_just_field] as long as that is below the order of the field, and the
    remainder modulo the order beyond (for the largest field element it
    returns the order minus 100); 70000 right after the constructor. *)
Theorem quadruple_spec (x y : Z) (s : PublicState) :
  after (quadruple x) s = s
  /\ result (quadruple x) s = (100 * result get_just_field s) mod modulus
  /\ result (quadruple x) s = result (quadruple y) s
  /\ 0 <= result (quadruple x) s < modulus
  /\ (forall value,
        0 <= 100 * value < modulus ->
        result (quadruple x) (after (set_just_field value) s) = 100 * value)
  /\ result (quadruple x) (after (set_just_field (modulus - 1)) s) = modulus - 100
  /\ result (quadruple x) (after constructor s) = 70000.
Proof.
  split; [reflexivity|]. split; [reflexivity|]. split; [reflexivity|].
  split; [apply Z.mod_pos_bound; reflexivity|].
  split; [|split; reflexivity].
  intros value Hvalue.
  change (result (quadruple x) (after (set_just_field value) s))
    with ((100 * value) mod modulus).
  by apply Z.mod_small.
Qed.

End ContractSequences.

(** ** The deployer fails fast *)

Section FailFast.
Import Server.

Lemma fail_fast_retA {R} (r : R) : fail_fast (ret r).
Proof.
  intros env n w. exists []. rewrite run_retA. cbn [world_of]. by rewrite extend_nil.
Qed.

Lemma fail_fast_call {T} (e : sysE T) :
  (forall a, thrown (Obs e a) = None) -> (forall a, ~ assigns (Obs e a)) ->
  fail_fast (call e).
Proof.
  intros Hnone Hassign env n w. rewrite run_call. destruct n as [|n]; cbn [world_of].
  - exists []. by rewrite extend_nil.
  - exists [Obs e (answer env e w)]. rewrite perform_snd by done.
    split; [done|]. by repeat constructor.
Qed.

Lemma fail_fast_await {T} (e : sysE (JsError + T)) :
  (forall a, thrown (Obs e a) = error_of a) -> (forall a, ~ assigns (Obs e a)) ->
  fail_fast (await e).
Proof.
  intros Hthrown Hassign env n w. rewrite run_await. destruct n as [|n]; cbn [world_of].
  - exists []. by rewrite extend_nil.
  - exists [Obs e (answer env e w)]. rewrite perform_snd by done.
    split; [done|]. rewrite perform_fst.
    destruct (answer env e w) as [error|v] eqn:Ha.
    + exists [], (Obs e (inl error)). by rewrite Hthrown.
    + repeat constructor. by rewrite Hthrown.
Qed.

Lemma fail_fast_bindA {R S} (t : Async R) (k : R -> Async S) :
  fail_fast t -> (forall v, fail_fast (k v)) -> fail_fast (bindA t k).
Proof.
  intros Ht Hk env n w. rewrite run_bindA.
  destruct (Ht env n w) as (tr1 & Hw1 & H1).
  destruct (run env n t w) as [[error|v] w1 rem|w1]; cbn [world_of] in *.
  - by exists tr1.
  - subst w1. destruct (Hk v env rem (extend w tr1)) as (tr2 & Hw2 & H2).
    exists (tr1 ++ tr2). rewrite Hw2, extend_extend. split; [done|].
    destruct (run env rem (k v) (extend w tr1)) as [[error|v'] w2 rem2|w2].
    + destruct H2 as (tr' & o & -> & Ho & Hpre). exists (tr1 ++ tr'), o.
      rewrite app_assoc. split; [done|]. split; [done|]. by apply Forall_app.
    + by apply Forall_app.
    + by apply Forall_app.
  - by exists tr1.
Qed.

Lemma finishes_retA {R} (r : R) : finishes_within 0 (ret r).
Proof. intros env w m. exists (inr r), w, m. by rewrite run_retA. Qed.

Lemma finishes_call {T} (e : sysE T) : finishes_within 1 (call e).
Proof. intros env w m. rewrite run_call. cbn. eauto. Qed.

Lemma finishes_await {T} (e : sysE (JsError + T)) : finishes_within 1 (await e).
Proof. intros env w m. rewrite run_await. cbn. eauto. Qed.

Lemma finishes_bindA {R S} a b (t : Async R) (k : R -> Async S) :
  finishes_within a t -> (forall v, finishes_within b (k v)) ->
  finishes_within (a + b) (bindA t k).
Proof.
  intros Ht Hk env w m. rewrite run_bindA.
  destruct (Ht env w (b + m)%nat) as (r & w1 & rem & Hrun & Hle).
  replace (a + b + m)%nat with (a + (b + m))%nat by lia. rewrite Hrun.
  destruct r as [error|v].
  - exists (inl error), w1, rem. split; [done | lia].
  - destruct (Hk v env w1 (rem - b)%nat) as (r & w2 & rem2 & Hrun2 & Hle2).
    replace (b + (rem - b))%nat with rem in Hrun2 by lia.
    exists r, w2, rem2. split; [done | lia].
Qed.

End FailFast.

Ltac fail_fast_step :=
  lazymatch goal with
  | |- Server.fail_fast (Server.bindA _ _) => apply fail_fast_bindA
  | |- Server.fail_fast (Server.ret _) => apply fail_fast_retA
  | |- Server.fail_fast (Server.call _) =>
      apply fail_fast_call; [intros; reflexivity | intros; not_assign]
  | |- Server.fail_fast (Server.await _) =>
      apply fail_fast_await; [intros; reflexivity | intros; not_assign]
  end.

Ltac finishes_step :=
  lazymatch goal with
  | |- Server.finishes_within _ (Server.bindA _ _) => eapply finishes_bindA
  | |- Server.finishes_within _ (Server.ret _) => apply finishes_retA
  | |- Server.finishes_within _ (Server.call _) => apply finishes_call
  | |- Server.finishes_within _ (Server.await _) => apply finishes_await
  end.

Section Deployer.
Import Server.
Context (env : Environment).

Lemma fail_fast_setupSandbox : fail_fast setupSandbox.
Proof. unfold setupSandbox. repeat (fail_fast_step; intros). Qed.

Lemma fail_fast_deployContract : fail_fast deployContract.
Proof.
  unfold deployContract, console_log.
  fail_fast_step; [fail_fast_step|intros].
  fail_fast_step; [apply fail_fast_setupSandbox|intros].
  repeat (fail_fast_step; intros).
Qed.

Lemma finishes_setupSandbox : finishes_within 3 setupSandbox.
Proof.
  unfold setupSandbox. change 3%nat with (1 + (1 + (1 + 0)))%nat.
  repeat (finishes_step; intros).
Qed.

Lemma finishes_deployContract : finishes_within 13 deployContract.
Proof.
  unfold deployContract, console_log.
  change 13%nat with (1 + (3 + (1 + (1 + (1 + (1 + (1 + (1 + (1 + (1 + (1 + 0)))))))))))%nat.
  finishes_step; [finishes_step|intros].
  finishes_step; [apply finishes_setupSandbox|intros].
  repeat (finishes_step; intros).
Qed.

(** X3: [setupSandbox] and [deployContract] stop at the first call that
    throws: at any moment of a run no call has thrown, unless the run is over
    and has ended with the error of the last call it made; nothing is called
    after a failure, and no error is swallowed.  Neither assigns a
    module-level variable, and neither can hang by itself: [setupSandbox] is
    over after at most 3 calls and [deployContract] after at most 13. *)
Theorem deployer_stops_at_first_error :
  fail_fast setupSandbox /\ fail_fast deployContract
  /\ finishes_within 3 setupSandbox /\ finishes_within 13 deployContract.
Proof.
  split; [apply fail_fast_setupSandbox|]. split; [apply fail_fast_deployContract|].
  split; [apply finishes_setupSandbox | apply finishes_deployContract].
Qed.

Lemma returns_await_bind_value {T R} (e : sysE (JsError + T)) (k : T -> Async R) w v w' :
  (forall a, ~ assigns (Obs e a)) ->
  returns env (bindA (await e) k) w (inr v) w' ->
  exists a, returns env (k a) (extend w [Obs e (inr a)]) (inr v) w'.
Proof.
  intros Ha H. destruct (returns_await_bind_inv env e k w v w' Ha H) as (a & _ & Hk). eauto.
Qed.

(** X4: a run of [deployContract] that returns a result has made exactly
    these calls, in this order: the client for [PXE_URL] or its default, the
    wait for the PXE, the initial test wallets (which it does not use), two
    random field elements for the secret key and the salt, the signing key
    derived from that secret key, the Schnorr account made from the three,
    its deployment, its wallet, and the deployment of the contract through
    that wallet.  The wallet of the result is the wallet of the account this
    run created, and the contract is the one deployed through it. *)
Theorem deployContract_success_trace (w : World) (res : DeploymentResult) (w' : World) :
  returns env deployContract w (inr res) w' ->
  exists env_url pxe wallets secretKey salt signingKey schnorrAccount tx,
    w' = extend w (deployment_trace env_url pxe wallets secretKey salt signingKey
                                    schnorrAccount tx res).
Proof.
  unfold deployContract, setupSandbox, console_log. intros H.
  apply returns_unit_call_bind_inv in H; [|not_assign].
  apply returns_bindA_inv in H as [(e & [=] & _)|(pxe & w1 & Hs & H)].
  apply returns_call_bind_inv in Hs; [|not_assign].
  set (env_url := answer env (ProcessEnv "PXE_URL") _) in Hs. clearbody env_url.
  destruct (returns_bindA_inv env _ _ _ _ _ Hs) as [(e & [=] & _)|(pxe' & w0 & Hc & Hs')].
  apply returns_await_inv in Hc as [Hc ->]. rewrite perform_snd in Hs' by not_assign.
  rewrite <- Hc in Hs'. clear Hc.
  apply returns_bindA_inv in Hs' as [(e & [=] & _)|([] & w0 & Hc & Hs')].
  apply returns_await_inv in Hc as [Hc ->]. rewrite perform_snd in Hs' by not_assign.
  rewrite <- Hc in Hs'. clear Hc.
  apply returns_retA_inv in Hs' as [[= <-] ->].
  apply returns_await_bind_value in H as [wallets H]; [|intros; not_assign].
  apply returns_call_bind_inv in H; [|not_assign].
  set (secretKey := answer env FrRandom _) in H. clearbody secretKey.
  apply returns_call_bind_inv in H; [|not_assign].
  set (salt := answer env FrRandom _) in H. clearbody salt.
  apply returns_call_bind_inv in H; [|not_assign].
  set (signingKey := answer env (DeriveSigningKey _) _) in H. clearbody signingKey.
  apply returns_await_bind_value in H as [schnorrAccount H]; [|intros; not_assign].
  apply returns_await_bind_value in H as [tx H]; [|intros; not_assign].
  apply returns_await_bind_value in H as [wl H]; [|intros; not_assign].
  apply returns_await_bind_value in H as [mainContract H]; [|intros; not_assign].
  apply returns_unit_call_bind_inv in H; [|not_assign].
  apply returns_retA_inv in H as [[= Hres] ->]. subst res.
  exists env_url, pxe, wallets, secretKey, salt, signingKey, schnorrAccount, tx.
  by rewrite !extend_extend.
Qed.

End Deployer.

(** ** What the deployer deploys the contract with *)

(** finds the calls of a list, in order, in a trace *)
Ltac sublist_steps :=
  repeat first [apply sublist_nil | apply sublist_skip | apply sublist_cons].

Section DeployerOrder.
Import Server.
Context (env : Environment).

Lemma run_bindA_assoc {R S U} n (t : Async R) (k1 : R -> Async S) (k2 : S -> Async U) w :
  run env n (bindA (bindA t k1) k2) w = run env n (bindA t (fun x => bindA (k1 x) k2)) w.
Proof.
  rewrite !run_bindA. destruct (run env n t w) as [[e|v] w1 rem|w1]; try done.
  by rewrite run_bindA.
Qed.

Lemma run_call_bind_zero {T R} (e : sysE T) (k : T -> Async R) w :
  run env 0 (bindA (call e) k) w = OutOfFuel w.
Proof. by rewrite run_bindA, run_call. Qed.

Lemma run_await_bind_zero {T R} (e : sysE (JsError + T)) (k : T -> Async R) w :
  run env 0 (bindA (await e) k) w = OutOfFuel w.
Proof. by rewrite run_bindA, run_await. Qed.

Ltac deployer_step :=
  lazymatch goal with
  | |- context [run env ?n (bindA (bindA _ _) _) _] => rewrite run_bindA_assoc
  | |- context [run env ?n (bindA (call ?e) ?k) ?w] =>
      destruct n as [|n];
      [rewrite run_call_bind_zero
      |rewrite run_call_bind, perform_snd by not_assign;
       let a := fresh "a" in
       set (a := answer env e w); clearbody a;
       lazymatch type of a with unit => destruct a | _ => idtac end;
       cbn beta zeta]
  | |- context [run env ?n (bindA (await ?e) ?k) ?w] =>
      destruct n as [|n];
      [rewrite run_await_bind_zero
      |rewrite run_await_bind, perform_snd by not_assign;
       destruct (answer env e w)]
  | |- context [run env ?n (bindA (ret ?v) ?k) ?w] => rewrite run_bindA, run_retA
  | |- context [run env ?n (ret ?v) ?w] => rewrite run_retA
  end.

(** X12: at any moment of a run of [deployContract], whatever the
    environment, the contract was deployed at most once, and only through
    the wallet returned by the Schnorr account that this run made from two
    freshly drawn field elements (the secret key and the salt) and the
    signing key derived from that secret key, after the deployment of that
    account was confirmed. *)
Theorem deployContract_order (n : nat) (w : World) :
  exists tr,
    world_of (run env n deployContract w) = extend w tr
    /\ (calls KMainContractDeploy tr = 0%nat
        \/ exists pxe secretKey salt signingKey schnorrAccount tx wallet reply,
             calls KMainContractDeploy tr = 1%nat
             /\ [Obs FrRandom secretKey;
                 Obs FrRandom salt;
                 Obs (DeriveSigningKey secretKey) signingKey;
                 Obs (GetSchnorrAccount pxe secretKey signingKey salt) (inr schnorrAccount);
                 Obs (AccountDeployWait schnorrAccount) (inr tx);
                 Obs (AccountGetWallet schnorrAccount) (inr wallet);
                 Obs (MainContractDeploy wallet) reply] `sublist_of` tr).
Proof.
  unfold deployContract, setupSandbox, console_log.
  repeat deployer_step.
  all: cbn [world_of]; rewrite ?extend_extend; cbn [app].
  all: try (exists []; rewrite extend_nil; split; [reflexivity | by left]).
  all: eexists; split; [reflexivity|].
  all: first [by left | right].
  all: do 8 eexists; split; [reflexivity|sublist_steps].
Qed.

End DeployerOrder.

(** ** The orchestration from start to end *)

Section Completion.
Import Server.
Context (env : Environment).

Lemma quiet_calls tr : Forall quiet tr -> calls KNewWebSocketServer tr = 0%nat.
Proof.
  induction 1 as [|o tr Ho _ IH]; [done|].
  change (o :: tr) with ([o] ++ tr). rewrite calls_app, IH.
  unfold calls, quiet in *. cbn. by rewrite decide_False.
Qed.

(** X6: the orchestration completes.  When the constructors of line 8 and
    of the bridge return their servers, the ports 3001 and 3002 can be
    bound, and the deployer fails with [errors] in turn and then succeeds
    with [res] (each attempt behind a prober that returns), the top level of
    server.ts runs to its end: it leaves the contract and the wallet of
    [res] in [contractInstance] and [walletInstance]; its trace is the one of
    the retry wrapper, the two assignments, and one bind attempt of the
    bridge, on port 3002, with the handler registered and the port logged;
    the only ports tried are 3001 and 3002, and no bind fails. *)
Theorem main_completes (ports : Ports) (wss wss' : WebSocketServer)
    (errors : list JsError) (res : DeploymentResult) (w2 : World) :
  ports 3001 = None ->
  ports 3002 = None ->
  env _ (NewWebSocketServer 3001) 0%nat = inr wss ->
  retry_scenario env (extend initial_world [Obs (NewWebSocketServer 3001) (inr wss)])
                 errors res w2 ->
  env _ (NewWebSocketServer 3002) 1%nat = inr wss' ->
  let tr := trace w2 ++ stored res ++ bind_obs 3002 (inr wss') in
  returns env main initial_world (inr tt)
    {| trace := tr;
       contractInstance := Some (contract res);
       walletInstance := Some (wallet res) |}
  /\ bind_ports tr = [3001; 3002]
  /\ failed_binds ports tr = [].
Proof.
  intros H3001 H3002 Hwss Hretry Hwss' tr.
  destruct (retry_scenario_trace env _ _ _ _ Hretry) as (tr1 & Hw2 & _ & Hquiet & _).
  split; [|split].
  - unfold main. eapply returns_bindA.
    { pose proof (returns_await env (NewWebSocketServer 3001) initial_world) as H.
      rewrite perform_snd in H by not_assign.
      change (answer env (NewWebSocketServer 3001) initial_world)
        with (env _ (NewWebSocketServer 3001) 0%nat) in H.
      rewrite Hwss in H. exact H. }
    eapply returns_bindA; [exact (proj1 (retry_behaviour env _) _ _ _ Hretry)|].
    eapply returns_bindA; [apply returns_call|]. rewrite perform_assign_contract.
    eapply returns_bindA; [apply returns_call|]. rewrite perform_assign_wallet.
    cbn [trace contractInstance walletInstance].
    set (w4 := {| trace := _; contractInstance := _; walletInstance := _ |}).
    assert (Hc : calls KNewWebSocketServer (trace w4) = 1%nat).
    { unfold w4. cbn [trace]. rewrite Hw2. cbn [trace extend].
      rewrite !calls_app, (quiet_calls _ Hquiet). reflexivity. }
    pose proof (bridge_attempt_returns env 3002 w4) as H. cbn zeta in H.
    unfold answer in H. cbn [kind_of] in H. rewrite Hc, Hwss' in H. cbn [caught_in_use] in H.
    rewrite startWebSocketServer_unfold.
    replace {| trace := tr;
               contractInstance := Some (contract res);
               walletInstance := Some (wallet res) |}
      with (extend w4 (bind_obs 3002 (inr wss'))); [by apply returns_tail_rec_done|].
    unfold extend, w4, tr. cbn [trace contractInstance walletInstance].
    by rewrite <- !app_assoc.
  - unfold tr. rewrite Hw2. unfold extend. cbn [trace initial_world].
    rewrite app_nil_l, !bind_ports_app, (quiet_no_ports _ Hquiet). reflexivity.
  - unfold tr. rewrite Hw2. unfold extend. cbn [trace initial_world].
    rewrite app_nil_l, !failed_binds_app, (quiet_no_failed_binds _ _ Hquiet). cbn.
    by rewrite H3001, H3002.
Qed.

End Completion.

(** ** One connection of the bridge *)

Section Session.
Import Server.
Context (env : Environment).

Lemma onConnection_returns port ws w :
  returns env (onConnection port ws) w (inr tt)
    (extend w [Obs (ConsoleLog [Str ("✅ Rust sequencer connected to WebSocket on port "
                                     +:+ pretty port)]) tt;
               Obs (WsOnMessage ws) tt;
               Obs (WsOnClose ws port) tt]).
Proof.
  exists 3%nat, 0%nat. unfold onConnection, console_log.
  rewrite run_call_bind, perform_unit by not_assign.
  rewrite run_call_bind, perform_unit by not_assign.
  rewrite run_call_unit by not_assign. by rewrite !extend_extend.
Qed.

Lemma onClose_returns port w :
  returns env (onClose port) w (inr tt)
    (extend w [Obs (ConsoleLog [Str ("❌ Rust sequencer disconnected from port "
                                     +:+ pretty port)]) tt]).
Proof.
  exists 1%nat, 0%nat. unfold onClose, console_log. by rewrite run_call_unit by not_assign.
Qed.

Lemma messages_handled_total ws messages : forall w,
  exists w', messages_handled env ws messages w w'.
Proof.
  induction messages as [|m ms IH]; intros w; [by exists w|].
  destruct (IH (extend w (message_obs ws m (answer env (RawDataToString m) w)))) as [w' H].
  exists w', (extend w (message_obs ws m (answer env (RawDataToString m) w))).
  split; [apply onMessage_returns | exact H].
Qed.

Lemma messages_handled_trace ws messages : forall w w',
  messages_handled env ws messages w w' ->
  exists texts,
    List.length texts = List.length messages
    /\ w' = extend w (flat_map (fun m => message_obs ws m.1 m.2) (zip messages texts)).
Proof.
  induction messages as [|m ms IH]; intros w w' H.
  - exists []. split; [done|]. cbn in *. by rewrite extend_nil.
  - destruct H as (w1 & Hm & H).
    destruct (returns_det env _ _ _ _ _ _ Hm (onMessage_returns env w ws m)) as [_ ->].
    apply IH in H as (texts & Hlen & ->).
    exists (answer env (RawDataToString m) w :: texts). split; [cbn; by rewrite Hlen|].
    by rewrite extend_extend.
Qed.

Lemma sent_messages ws (messages : list (RawData * string)) :
  sent (flat_map (fun m => message_obs ws m.1 m.2) messages)
  = replicate (List.length messages) (ws, ack_payload).
Proof.
  induction messages as [|m ms IH]; [done|].
  cbn [flat_map]. rewrite sent_app, IH. reflexivity.
Qed.

(** X7: the handlers of a connection never throw, whatever the messages, so
    the connection can always be served to its end; and when a client
    connects, sends [messages] and disconnects, the trace is: the line
    "connected", the registration of the two handlers on that socket, for
    each message its text, the line "Received" with that text and one
    acknowledgement on that socket, then the line "disconnected".  There are
    as many acknowledgements as messages, all with the same text, and no
    module-level variable changes. *)
Theorem session_acknowledges_each_message (port : Z) (ws : WebSocket)
    (messages : list RawData) (w : World) :
  (exists w', session env port ws messages w w')
  /\ (forall w',
        session env port ws messages w w' ->
        exists texts,
          List.length texts = List.length messages
          /\ w' = extend w (session_trace port ws (zip messages texts))
          /\ sent (session_trace port ws (zip messages texts))
             = replicate (List.length messages) (ws, ack_payload)).
Proof.
  split.
  - destruct (messages_handled_total ws messages
                (extend w (take 3 (session_trace port ws [])))) as [w2 H].
    eexists. exists (extend w (take 3 (session_trace port ws []))), w2.
    split; [apply onConnection_returns|]. split; [exact H | apply onClose_returns].
  - intros w' (w1 & w2 & Hc & Hm & Hx).
    destruct (returns_det env _ _ _ _ _ _ Hc (onConnection_returns port ws w)) as [_ ->].
    apply messages_handled_trace in Hm as (texts & Hlen & ->).
    destruct (returns_det env _ _ _ _ _ _ Hx (onClose_returns port _)) as [_ ->].
    exists texts. split; [done|]. split.
    + rewrite !extend_extend. reflexivity.
    + unfold session_trace. rewrite !sent_app, sent_messages.
      rewrite length_zip_with_l_eq by (by rewrite Hlen). cbn. by rewrite app_nil_r.
Qed.

End Session.

(** ** Who calls what *)

Section Kinds.
Import Server.

Ltac of_kind := unfold of_kinds, retry_kinds; cbn; repeat constructor.

Lemma emits_prober_kinds ks : prober_kinds ⊆ ks -> emits (of_kinds ks) ensurePXEReady.
Proof.
  intros Hks.
  assert (Hl : forall args a, of_kinds ks (Obs (ConsoleLog args) a))
    by (intros; apply Hks; of_kind).
  assert (Hf : forall url a, of_kinds ks (Obs (Fetch url) a))
    by (intros; apply Hks; of_kind).
  assert (Ht : forall ms a, of_kinds ks (Obs (SetTimeout ms) a))
    by (intros; apply Hks; of_kind).
  unfold ensurePXEReady, console_log, sleep.
  repeat (emits_step; intros); try done.
  - destruct (String.eqb _ _); repeat (emits_step; intros); done.
  - match goal with b : bool |- _ => destruct b end;
      repeat (emits_step; intros); done.
Qed.

Lemma emits_deployer_kinds ks : deployer_kinds ⊆ ks -> emits (of_kinds ks) deployContract.
Proof.
  intros Hks. unfold deployContract, setupSandbox, console_log.
  repeat (emits_step; intros); apply Hks; of_kind.
Qed.

Lemma emits_retry_kinds : emits (of_kinds retry_kinds) deployContractWithRetry.
Proof.
  unfold deployContractWithRetry.
  apply emits_tail_rec. intros _.
  apply emits_bindA; [apply emits_prober_kinds; compute_done|intros _].
  apply emits_try_catch.
  - unfold console_log. emits_step; [emits_step; of_kind|intros].
    emits_step; [apply emits_deployer_kinds; compute_done|intros].
    repeat (emits_step; intros); of_kind.
  - intros e. unfold console_error, sleep. repeat (emits_step; intros); of_kind.
Qed.

(** X8: however long they run and whatever the environment, the parts of
    server.ts only make calls of their own kinds and assign no module-level
    variable: the prober logs, fetches and sleeps; the deployer logs and
    talks to the Aztec client library; the retry wrapper does what these two
    do and logs errors; [startWebSocketServer] binds sockets, registers the
    connection handler and logs; the connection handler logs and registers
    the two other handlers; the message handler reads the message, logs and
    sends; the close handler logs.  In particular only
    [startWebSocketServer] binds a socket, only the message handler sends on
    one, and nothing but the prober and the retry wrapper sleeps. *)
Theorem each_part_makes_only_its_calls :
  emits (of_kinds prober_kinds) ensurePXEReady
  /\ emits (of_kinds deployer_kinds) deployContract
  /\ emits (of_kinds retry_kinds) deployContractWithRetry
  /\ (forall port, emits (of_kinds bridge_kinds) (startWebSocketServer port))
  /\ (forall port ws, emits (of_kinds connection_kinds) (onConnection port ws))
  /\ (forall ws message, emits (of_kinds message_kinds) (onMessage ws message))
  /\ (forall port, emits (of_kinds close_kinds) (onClose port)).
Proof.
  split; [by apply emits_prober_kinds|]. split; [by apply emits_deployer_kinds|].
  split; [|split; [|split; [|split]]].
  - apply emits_retry_kinds.
  - intros port. unfold startWebSocketServer, console_log, console_error.
    repeat (emits_step; intros); try of_kind.
    destruct (code_is _ _); repeat (emits_step; intros); of_kind.
  - intros port ws. unfold onConnection, console_log. repeat (emits_step; intros); of_kind.
  - intros ws message. unfold onMessage, console_log. repeat (emits_step; intros); of_kind.
  - intros port. unfold onClose, console_log. repeat (emits_step; intros); of_kind.
Qed.

(** X11: while the status endpoint never answers ["OK"], the retry wrapper
    never returns and never starts the deployer: at any moment all it has
    done is log, fetch the status and sleep. *)
Theorem retry_waits_for_the_PXE (env : Environment) (w : World) :
  (forall i, ready (env _ (Fetch status_url) (calls KFetch (trace w) + i)%nat) = false) ->
  forall n, exists tr,
    run env n deployContractWithRetry w = OutOfFuel (extend w tr)
    /\ Forall (of_kinds prober_kinds) tr.
Proof.
  intros Hdown n.
  destruct (proj1 (proj2 (prober_behaviour env w)) Hdown n) as [w' Hrun].
  destruct (emits_prober_kinds prober_kinds (reflexivity _) env n w) as (tr & Hw & Hk & _).
  rewrite Hrun in Hw. cbn [world_of] in Hw. subst w'. exists tr. split; [|done].
  rewrite deployContractWithRetry_unfold, run_tail_rec. unfold deploy_attempt.
  by rewrite run_bindA, Hrun.
Qed.

End Kinds.

(** ** The server of line 8 *)

Section Line8.
Import Server.
Context (env : Environment).








End Line8.

(** ** The script *)

Section ScriptRuns.
Import Server Script.

Lemma script_bind_call {T R} (e : scriptE T) (k : T -> Async R) env tr :
  bindA (call e) k env tr = k (env _ e tr) env (tr ++ [Obs e (env _ e tr)]).
Proof. reflexivity. Qed.

Lemma script_bind_await {T R} (e : scriptE (JsError + T)) (k : T -> Async R) env tr :
  bindA (await e) k env tr =
  match env _ e tr with
  | inl error => (inl error, tr ++ [Obs e (inl error)])
  | inr v => k v env (tr ++ [Obs e (inr v)])
  end.
Proof. unfold bindA, await. by destruct (env _ e tr). Qed.

Lemma script_bind_assoc {R S U} (t : Async R) (k1 : R -> Async S) (k2 : S -> Async U) env tr :
  bindA (bindA t k1) k2 env tr = bindA t (fun x => bindA (k1 x) k2) env tr.
Proof. unfold bindA. by destruct (t env tr) as [[error|v] tr']. Qed.

Lemma script_bind_ret {R S} (r : R) (k : R -> Async S) env tr : bindA (ret r) k env tr = k r env tr.
Proof. reflexivity. Qed.

Lemma script_call {T} (e : scriptE T) env tr :
  call e env tr = (inr (env _ e tr), tr ++ [Obs e (env _ e tr)]).
Proof. reflexivity. Qed.

End ScriptRuns.

(** one step of the script in the hypothesis [H : t env tr = (r, tr')] *)
Ltac script_step H :=
  lazymatch type of H with
  | Script.bindA (Script.bindA _ _) _ _ _ = _ => rewrite script_bind_assoc in H
  | Script.bindA (Script.ret _) _ _ _ = _ => rewrite script_bind_ret in H
  | Script.bindA (Script.call ?e) ?k ?env ?tr = _ =>
      rewrite (script_bind_call e k env tr) in H;
      let a := fresh "a" in
      set (a := env _ e tr) in H; clearbody a;
      lazymatch type of a with unit => destruct a | _ => idtac end;
      cbn beta zeta in H; cbn [app] in H
  | Script.bindA (Script.await ?e) ?k ?env ?tr = _ =>
      rewrite (script_bind_await e k env tr) in H;
      destruct (env _ e tr) eqn:?;
      cbn beta zeta in H; cbn [app] in H
  | Script.call ?e ?env ?tr = _ =>
      rewrite (script_call e env tr) in H;
      let a := fresh "a" in
      set (a := env _ e tr) in H; clearbody a;
      lazymatch type of a with unit => destruct a | _ => idtac end;
      cbn [app] in H
  end.

Section ScriptProperties.
Import Server Script.
Context (env : Script.Environment).

(** X9: whatever the environment, the script stops at the first call that
    throws and ends with its error, and no call throws in a run that ends
    normally.  It sends at most one transaction: [set_just_field(214)], on
    the handle that [MainContract.at] returned for the address of the
    contract deployed earlier in the run and for the first of the initial
    test wallets fetched after the deployment ([undefined] when there is
    none).  It simulates at
    most one read, on the same handle, and only after that transaction was
    confirmed. *)
Theorem script_order :
  let r := (main env []).1 in
  let tr := (main env []).2 in
  match r with
  | inl error => omap thrown tr = [error] /\ last tr ≫= thrown = Some error
  | inr _ => omap thrown tr = []
  end
  /\ (transactions tr = []
      \/ exists wallet mainContract pxe owners main reply,
           transactions tr = [(main, 214)]
           /\ [Obs (MainContractDeploy wallet) (inr mainContract);
               Obs (GetInitialTestAccountsWallets pxe) (inr owners);
               Obs (MainContractAt (address mainContract) (head owners)) (inr main);
               Obs (SetJustField main 214) reply] `sublist_of` tr)
  /\ (simulations tr = []
      \/ exists main receipt reply,
           simulations tr = [main]
           /\ [Obs (SetJustField main 214) (inr receipt);
               Obs (GetJustFieldSimulate main) reply] `sublist_of` tr).
Proof.
  destruct (main env []) as [r tr] eqn:H. cbn [fst snd].
  unfold main, setupSandbox, getMain, console_log in H.
  repeat script_step H.
  all: injection H as <- <-.
  all: split; [by cbn|].
  all: split.
  all: first [by left | right].
  all: do 6 try eexists.
  all: try (split; [reflexivity|]).
  all: sublist_steps.
Qed.

(** X10: the script and the contract together.  In a sandbox that runs the
    contract of main.nr (a confirmed deployment runs [constructor], a
    confirmed transaction runs [set_just_field], a simulation returns what
    [get_just_field] returns), a run of the script that ends normally prints
    [just_field: 214] as its last line: the 700 written by the constructor
    is overwritten. *)
Theorem script_prints_214 (tr : list obs) :
  sandbox_runs_Main env ->
  main env [] = (inr tt, tr) ->
  last (printed tr) = Some [Str "just_field: "; FieldValue 214].
Proof.
  intros [Hat Hsim] H.
  unfold main, setupSandbox, getMain, console_log in H.
  repeat script_step H; try discriminate H.
  injection H as <-.
  match goal with
  | H1 : env _ (MainContractAt _ _) _ = inr _ |- _ => apply Hat in H1 as Haddress
  end.
  match goal with
  | H2 : env _ (GetJustFieldSimulate _) _ = inr _ |- _ =>
      apply Hsim in H2 as (state & Hstate & ->)
  end.
  unfold chain_state in Hstate. cbn in Hstate.
  rewrite Haddress, !String.eqb_refl in Hstate. cbn in Hstate.
  by injection Hstate as <-.
Qed.

End ScriptProperties.


(** ** More scenarios *)

Section MoreScenarios.
Import Server.

Lemma quadruple_spec_witness :
  Contract.result (Contract.quadruple 20)
    (Contract.after (Contract.set_just_field 7) Contract.empty_state) = 100 * 7.
Proof.
  apply (proj1 (proj2 (proj2 (proj2 (proj2
           (quadruple_spec 20 20 Contract.empty_state))))) 7).
  by vm_compute.
Defined.

Lemma deployContract_success_trace_witness :
  exists env_url pxe wallets secretKey salt signingKey schnorrAccount tx,
    world_of (run calm 13 deployContract initial_world) =
    extend initial_world
           (deployment_trace env_url pxe wallets secretKey salt signingKey
                             schnorrAccount tx first_attempt).
Proof.
  apply (deployContract_success_trace calm initial_world first_attempt).
  apply (returns_of_run _ 13). by vm_compute.
Defined.

Lemma startWebSocketServer_misses_failed_binds_witness :
  let tr := bind_obs 3002 (inr {| server_id := 0 |}) in
  returns calm (startWebSocketServer 3002) initial_world (inr tt) (extend initial_world tr)
  /\ bind_ports tr = [3002]
  /\ calls KConsoleError tr = 0%nat
  /\ failed_binds port_3002_busy tr = [(3002, address_in_use)]
  /\ failed_binds port_3002_denied tr = [(3002, access_denied)].
Proof.
  intros tr.
  destruct (proj1 (startWebSocketServer_misses_failed_binds calm initial_world 3002)
                  {| server_id := 0 |} eq_refl)
    as (Hret & _ & Hports & Hlog & Hfail).
  split; [exact Hret|]. split; [exact Hports|]. split; [exact Hlog|].
  split; apply Hfail; reflexivity.
Defined.

Lemma main_completes_witness :
  let w1 := extend initial_world [Obs (NewWebSocketServer 3001) (inr {| server_id := 0 |})] in
  let w2 := world_of (run calm 40 deployContractWithRetry w1) in
  let tr := trace w2 ++ stored first_attempt ++ bind_obs 3002 (inr {| server_id := 1 |}) in
  returns calm main initial_world (inr tt)
    {| trace := tr;
       contractInstance := Some (contract first_attempt);
       walletInstance := Some (wallet first_attempt) |}
  /\ bind_ports tr = [3001; 3002]
  /\ failed_binds all_ports_free tr = [].
Proof.
  intros w1 w2.
  apply (main_completes calm all_ports_free {| server_id := 0 |} {| server_id := 1 |}
                        [] first_attempt w2).
  - reflexivity.
  - reflexivity.
  - reflexivity.
  - set (wa := world_of (run calm 10 ensurePXEReady w1)).
    set (wb := world_of (run calm 20 deployContract (extend wa deploying))).
    exists wa, wb. split; [apply (returns_of_run _ 10); by vm_compute|].
    split; [apply (returns_of_run _ 20); by vm_compute|]. by vm_compute.
  - reflexivity.
Defined.

Lemma session_acknowledges_each_message_witness :
  let ws := {| socket_id := 7 |} in
  let w1 := world_of (run calm 3 (onConnection 3002 ws) initial_world) in
  let w2 := world_of (run calm 3 (onMessage ws hello) w1) in
  let w3 := world_of (run calm 3 (onMessage ws hello) w2) in
  let w' := world_of (run calm 1 (onClose 3002) w3) in
  exists texts,
    List.length texts = 2%nat
    /\ w' = extend initial_world (session_trace 3002 ws (zip [hello; hello] texts))
    /\ sent (session_trace 3002 ws (zip [hello; hello] texts))
       = [(ws, ack_payload); (ws, ack_payload)].
Proof.
  intros ws w1 w2 w3 w'.
  apply (proj2 (session_acknowledges_each_message calm 3002 ws [hello; hello] initial_world) w').
  exists w1, w3. split; [apply (returns_of_run _ 3); by vm_compute|].
  split; [|apply (returns_of_run _ 1); by vm_compute].
  exists w2. split; [apply (returns_of_run _ 3); by vm_compute|].
  exists w3. split; [apply (returns_of_run _ 3); by vm_compute|]. reflexivity.
Defined.

Lemma retry_waits_for_the_PXE_witness :
  exists tr,
    run remote_pxe 100 deployContractWithRetry initial_world
    = OutOfFuel (extend initial_world tr)
    /\ Forall (of_kinds prober_kinds) tr.
Proof.
  apply (retry_waits_for_the_PXE remote_pxe initial_world).
  intros i. reflexivity.
Defined.

End MoreScenarios.

(** ** The script in the sandbox *)

Section ScriptScenarios.
Import Server Script.

Lemma sandbox_runs_Main_sandbox : sandbox_runs_Main sandbox.
Proof.
  split.
  - intros tr contractAddress wallet main [= <-]. reflexivity.
  - intros tr main value. cbn. destruct (chain_state (address main) tr) as [state|]; [|done].
    intros [= <-]. by exists state.
Qed.

Lemma script_prints_214_witness :
  last (printed (main sandbox []).2) = Some [Str "just_field: "; FieldValue 214].
Proof.
  apply (script_prints_214 sandbox (main sandbox []).2).
  - exact sandbox_runs_Main_sandbox.
  - by vm_compute.
Defined.

End ScriptScenarios.
